(** * The super tiny compiler: tokenizer, parser, traverser, transformer,
      code generator

    A shallow embedding of [the-super-tiny-compiler.js] and the properties of
    its four stages.

    Conventions of the embedding.
    - A JavaScript string is the list of its UTF-16 code units ([jsstring]);
      [js] turns a literal into such a list.
    - A cursor into an immutable array ([current] with [input] or [tokens]) is
      represented by the part of the array at and after the cursor:
      [input[current]] is the head of that list and is [undefined] ([None])
      when the list is empty; [current++] is the tail.  A cursor beyond the
      end stays beyond the end, and the tail of the empty list is empty.
    - A function that may throw returns an [outcome]; loops that JavaScript
      runs without a bound take a fuel argument and answer [OutOfFuel] when
      it is used up.
    - Strings have no greatest length.  A loop that appends to a string for
      ever is a run that no fuel ends; an engine stops it when the string
      outgrows what the engine allows, with an error of its own. *)

From Stdlib Require Import NArith String Ascii.
From stdpp Require Import base option list gmap.

Local Open Scope list_scope.

(** ** Strings *)

Definition code_unit := N.
Definition jsstring := list code_unit.

Definition js (s : string) : jsstring :=
  List.map N_of_ascii (list_ascii_of_string s).

(** The double quote character, code unit 34. *)
Definition quote : code_unit := 34%N.

(** ** Outcomes *)

Inductive exn : Type :=
| TypeError (message : jsstring)
    (* thrown by the program: [throw new TypeError(message)] *)
| HostTypeError.
    (* raised by the host when a property of [undefined] or [null] is read *)

Inductive outcome (A : Type) : Type :=
| Ok (a : A)
| Throw (e : exn)
| OutOfFuel.
Arguments Ok {A} a.
Arguments Throw {A} e.
Arguments OutOfFuel {A}.

Definition bind {A B} (m : outcome A) (k : A -> outcome B) : outcome B :=
  match m with
  | Ok a => k a
  | Throw e => Throw e
  | OutOfFuel => OutOfFuel
  end.

Notation "'let*' x ':=' m 'in' k" := (bind m (fun x => k))
  (at level 10, x name, m at level 100, k at level 200).
Notation "'let*' ' p ':=' m 'in' k" := (bind m (fun x => let 'p := x in k))
  (at level 10, p pattern, m at level 100, k at level 200).

(** ** Tokens *)

(** The four values of [token.type]: 'paren', 'number', 'string', 'name'. *)
Inductive token_type : Type := T_paren | T_number | T_string | T_name.

Record token : Type := Token { type : token_type; value : jsstring }.

(** [String(token.type)], the message of the parser's [TypeError]. *)
Definition token_type_name (t : token_type) : jsstring :=
  match t with
  | T_paren => js "paren"
  | T_number => js "number"
  | T_string => js "string"
  | T_name => js "name"
  end.

(** ** The tokenizer *)

Module Tokenizer.
Local Open Scope N_scope.

(** [String(char)] for a [char] read from the input: reading past the end
    gives [undefined], which [RegExp.prototype.test] and [+=] turn into the
    string [undefined]. *)
Definition ToString (char : option code_unit) : jsstring :=
  match char with
  | Some c => [c]
  | None => js "undefined"
  end.

(** [/\s/]: WhiteSpace and LineTerminator of ECMAScript. *)
Definition is_whitespace (c : code_unit) : bool :=
  (c =? 9) || (c =? 10) || (c =? 11) || (c =? 12) || (c =? 13) || (c =? 32)
  || (c =? 160) || (c =? 5760) || ((8192 <=? c) && (c <=? 8202))
  || (c =? 8232) || (c =? 8233) || (c =? 8239) || (c =? 8287)
  || (c =? 12288) || (c =? 65279).

(** [/[0-9]/] *)
Definition is_digit (c : code_unit) : bool := (48 <=? c) && (c <=? 57).

(** [/[a-z]/i]: without the [u] flag only the ASCII letters match. *)
Definition is_letter (c : code_unit) : bool :=
  ((97 <=? c) && (c <=? 122)) || ((65 <=? c) && (c <=? 90)).

(** [re.test(char)]: is there a match anywhere in [String(char)]. *)
Definition test (class : code_unit -> bool) (char : option code_unit) : bool :=
  existsb class (ToString char).

Definition WHITESPACE := test is_whitespace.
Definition NUMBERS := test is_digit.
Definition LETTERS := test is_letter.

(** [char !== quote], the test of the string loop. *)
Definition not_quote (char : option code_unit) : bool :=
  match char with
  | Some c => negb (c =? quote)
  | None => true
  end.

(** The three inner loops,
    [while (cond(char)) { value += char; char = input[++current]; }],
    where [char] is the head of [rest]. *)
Fixpoint scan_while (cond : option code_unit -> bool) (fuel : nat)
    (value : jsstring) (rest : jsstring) : outcome (jsstring * jsstring) :=
  if cond (head rest) then
    match fuel with
    | O => OutOfFuel
    | S fuel' =>
        scan_while cond fuel' (value ++ ToString (head rest)) (tail rest)
    end
  else Ok (value, rest).

(** One turn of the outer loop, for [char = input[current]] and [rest'] the
    input after it: every branch that does not throw ends in [continue], with
    a new cursor and a new [tokens]. *)
Definition tokenizer_step (fuel : nat) (char : code_unit) (rest' : jsstring)
    (tokens : list token) : outcome (jsstring * list token) :=
  let rest := char :: rest' in
  if char =? 40 then
    Ok (rest', tokens ++ [Token T_paren (js "(")])
  else if char =? 41 then
    Ok (rest', tokens ++ [Token T_paren (js ")")])
  else if WHITESPACE (Some char) then
    Ok (rest', tokens)
  else if NUMBERS (Some char) then
    let* '(value, rest1) := scan_while NUMBERS fuel [] rest in
    Ok (rest1, tokens ++ [Token T_number value])
  else if char =? quote then
    (* [char = input[++current]] skips the opening quote *)
    let* '(value, rest1) := scan_while not_quote fuel [] rest' in
    (* [char = input[++current]] skips the closing quote *)
    Ok (tail rest1, tokens ++ [Token T_string value])
  else if LETTERS (Some char) then
    let* '(value, rest1) := scan_while LETTERS fuel [] rest in
    Ok (rest1, tokens ++ [Token T_name value])
  else
    Throw (TypeError (js "I dont know what this character is: " ++ [char])).

(** The outer loop [while (current < input.length) { ... }]. *)
Fixpoint tokenizer_loop (fuel : nat) (rest : jsstring) (tokens : list token)
    : outcome (list token) :=
  match rest with
  | [] => Ok tokens
  | char :: rest' =>
      match fuel with
      | O => OutOfFuel
      | S fuel' =>
          let* '(rest1, tokens1) := tokenizer_step fuel' char rest' tokens in
          tokenizer_loop fuel' rest1 tokens1
      end
  end.

(** A run that returns or throws uses at most one unit of fuel for each code
    unit of the input, so more fuel than the input is long decides every
    input (see [tokenizer_loop_fuel] below): [OutOfFuel] here is a loop that
    never ends. *)
Definition tokenizer (input : jsstring) : outcome (list token) :=
  tokenizer_loop (S (length input)) input [].

End Tokenizer.
Export Tokenizer.

(** ** Syntax trees

    One type for the objects of both trees.  The source tree uses [Program],
    [CallExpression], [NumberLiteral] and [StringLiteral]; the target tree
    uses [Program], [ExpressionStatement], [CallExpressionT], [Identifier]
    and the two literals.  [CallExpression] is the object
    [{type: 'CallExpression', name, params}] and [CallExpressionT] the object
    [{type: 'CallExpression', callee, arguments}]: both carry the same
    [type] and different properties. *)

#[local] Set Warnings "-register-all".

Inductive node : Type :=
| Program (body : list node)
| CallExpression (name : jsstring) (params : list node)
| NumberLiteral (value : jsstring)
| StringLiteral (value : jsstring)
| ExpressionStatement (expression : node)
| CallExpressionT (callee : node) (arguments : list node)
| Identifier (name : jsstring).

(** ** The parser *)

Module Parser.

(** The exit test of the loop over the parameters, negated:
    [token.type === 'paren' && token.value === ')']. *)
Definition closes (t : token) : bool :=
  match type t with
  | T_paren => bool_decide (value t = js ")")
  | _ => false
  end.

(** [walk()], and the loop that fills [node.params]; [tokens] is the part of
    the array at and after [current], and the result carries the part that
    is left. *)
Fixpoint walk (fuel : nat) (tokens : list token)
    : outcome (node * list token) :=
  match fuel with
  | O => OutOfFuel
  | S fuel' =>
      match tokens with
      | [] => Throw HostTypeError (* [token] is undefined: [token.type] *)
      | token :: rest =>
          match type token with
          | T_number => Ok (NumberLiteral (value token), rest)
          | T_string => Ok (StringLiteral (value token), rest)
          | T_paren =>
              if bool_decide (value token = js "(") then
                match rest with
                | [] => Throw HostTypeError (* [token.value] of undefined *)
                | callee :: rest' =>
                    let* '(params, rest'') := params_loop fuel' [] rest' in
                    (* [current++] steps over the closing parenthesis *)
                    Ok (CallExpression (value callee) params, tail rest'')
                end
              else Throw (TypeError (token_type_name (type token)))
          | T_name => Throw (TypeError (token_type_name (type token)))
          end
      end
  end
with params_loop (fuel : nat) (params : list node) (tokens : list token)
    : outcome (list node * list token) :=
  match fuel with
  | O => OutOfFuel
  | S fuel' =>
      match tokens with
      | [] => Throw HostTypeError (* [token.type] of undefined *)
      | token :: _ =>
          if closes token then Ok (params, tokens)
          else
            let* '(n, rest) := walk fuel' tokens in
            params_loop fuel' (params ++ [n]) rest
      end
  end.

(** [while (current < tokens.length) { ast.body.push(walk()); }] *)
Fixpoint parser_loop (fuel : nat) (tokens : list token) (body : list node)
    : outcome node :=
  match tokens with
  | [] => Ok (Program body)
  | _ :: _ =>
      match fuel with
      | O => OutOfFuel
      | S fuel' =>
          let* '(n, rest) := walk fuel' tokens in
          parser_loop fuel' rest (body ++ [n])
      end
  end.

(** Every call of [walk] that returns has moved the cursor, so twice the
    number of tokens and one more is fuel enough: [parser] never answers
    [OutOfFuel] (see [parser_terminates] below). *)
Definition parser (tokens : list token) : outcome node :=
  parser_loop (2 * length tokens + 1) tokens [].

End Parser.
Export Parser.

(** [node.type] *)
Definition node_type (n : node) : jsstring :=
  match n with
  | Program _ => js "Program"
  | CallExpression _ _ | CallExpressionT _ _ => js "CallExpression"
  | NumberLiteral _ => js "NumberLiteral"
  | StringLiteral _ => js "StringLiteral"
  | ExpressionStatement _ => js "ExpressionStatement"
  | Identifier _ => js "Identifier"
  end.

(** ** The traverser

    The callbacks of a visitor get the node and its parent as objects, and
    the transformer sets a property on them.  An object of the tree is
    identified by its position: the root is [[]] and the [i]-th child of the
    object at [r] is [r ++ [i]] (no object stands at two places of a tree,
    as in the trees the parser builds).  What the callbacks do to objects is
    kept in a state of the visitor's choice. *)

Definition ref := list nat.
Definition obj : Type := ref * node.

Section Traverser.
Context {state : Type}.

Definition callback : Type := obj -> option obj -> state -> outcome state.

Record methods : Type := Methods
  { enter : option callback; exit : option callback }.

(** [visitor[type]], [None] where the visitor has no such property. *)
Definition visitor : Type := jsstring -> option methods.

(** [if (methods && methods.enter) { methods.enter(node, parent); }], and
    the same for [exit] (whose [console.log] is left out). *)
Definition call (m : option methods) (which : methods -> option callback)
    (node : obj) (parent : option obj) (s : state) : outcome state :=
  match m with
  | Some ms =>
      match which ms with
      | Some f => f node parent s
      | None => Ok s
      end
  | None => Ok s
  end.

Section TraverseArray.
Variable traverseNode : node -> ref -> option obj -> state -> outcome state.

(** [array.forEach(child => { traverseNode(child, parent); })], from the
    [i]-th child on. *)
Fixpoint traverseArray (array : list node) (parent : obj) (i : nat)
    (s : state) : outcome state :=
  match array with
  | [] => Ok s
  | child :: array' =>
      let* s' := traverseNode child (parent.1 ++ [i]) (Some parent) s in
      traverseArray array' parent (S i) s'
  end.
End TraverseArray.

Variable v : visitor.

Fixpoint traverseNode (n : node) (r : ref) (parent : option obj)
    (s : state) : outcome state :=
  let methods := v (node_type n) in
  let* s := call methods enter (r, n) parent s in
  let* s :=
    match n with
    | Program body => traverseArray traverseNode body (r, n) 0 s
    | CallExpression _ params => traverseArray traverseNode params (r, n) 0 s
    | NumberLiteral _ | StringLiteral _ => Ok s
    | CallExpressionT _ _ =>
        (* case 'CallExpression' with [node.params] undefined:
           [array.forEach] of undefined *)
        Throw HostTypeError
    | ExpressionStatement _ | Identifier _ =>
        (* default: *)
        Throw (TypeError (node_type n))
    end in
  call methods exit (r, n) parent s.

(** [traverseNode(ast, null)] *)
Definition traverser (ast : node) (s : state) : outcome state :=
  traverseNode ast [] None s.
End Traverser.
Arguments callback : clear implicits.
Arguments methods : clear implicits.
Arguments visitor : clear implicits.

(** ** The transformer

    The target tree is built in place: the arrays [body] and [arguments] are
    shared between the target tree and the [_context] property of the source
    nodes, and grow by [push] after the object that holds them has been
    pushed itself.  So the arrays live in a store, target objects refer to
    them by location, and [_context] maps (the identity of) a source object
    to a location. *)

Module Transformer.

Definition loc := nat.

(** Target objects in the store. *)
Inductive hnode : Type :=
| HProgram (body : loc)
| HExpressionStatement (expression : hnode)
| HCallExpression (callee : hnode) (arguments : loc)
| HIdentifier (name : jsstring)
| HNumberLiteral (value : jsstring)
| HStringLiteral (value : jsstring).

Record store : Type := Store
  { arrays : list (list hnode);     (* the arrays, by location *)
    contexts : gmap ref loc }.      (* [_context] of the source objects *)

(** [parent._context.push(x)] *)
Definition push (parent : option obj) (x : hnode) (s : store) : outcome store :=
  match parent with
  | None => Throw HostTypeError (* [parent] is null *)
  | Some (p, _) =>
      match contexts s !! p with
      | None => Throw HostTypeError (* [parent._context] is undefined *)
      | Some l =>
          Ok (Store (alter (fun a => a ++ [x]) l (arrays s)) (contexts s))
      end
  end.

Definition NumberLiteral_enter : callback store :=
  fun node parent s =>
    match node.2 with
    | NumberLiteral value => push parent (HNumberLiteral value) s
    | _ => Throw HostTypeError (* not called: the visitor is keyed by type *)
    end.

Definition StringLiteral_enter : callback store :=
  fun node parent s =>
    match node.2 with
    | StringLiteral value => push parent (HStringLiteral value) s
    | _ => Throw HostTypeError (* not called: the visitor is keyed by type *)
    end.

Definition CallExpression_enter : callback store :=
  fun node parent s =>
    match node.2 with
    | CallExpression name _ =>
        (* [arguments: []] is a new array *)
        let l := length (arrays s) in
        let expression := HCallExpression (HIdentifier name) l in
        (* [node._context = expression.arguments] *)
        let s := Store (arrays s ++ [[]]) (<[node.1 := l]> (contexts s)) in
        match parent with
        | None => Throw HostTypeError (* [parent.type] of null *)
        | Some (_, p) =>
            let expression :=
              if bool_decide (node_type p <> js "CallExpression")
              then HExpressionStatement expression
              else expression in
            push parent expression s
        end
    | _ =>
        (* a target-shaped call has no [name]; whatever the callback does
           with it, [traverseNode] throws at [node.params] next *)
        Throw HostTypeError
    end.

Definition transformer_visitor : visitor store :=
  fun type =>
    if bool_decide (type = js "NumberLiteral") then
      Some (Methods (Some NumberLiteral_enter) None)
    else if bool_decide (type = js "StringLiteral") then
      Some (Methods (Some StringLiteral_enter) None)
    else if bool_decide (type = js "CallExpression") then
      Some (Methods (Some CallExpression_enter) None)
    else None.

(** Reading a target object out of the store as a tree.  Fuel bounds the
    number of arrays passed through on the way down. *)
Fixpoint reify (fuel : nat) (a : list (list hnode)) : hnode -> option node :=
  match fuel with
  | O => fun _ => None
  | S fuel' =>
      fix go (h : hnode) : option node :=
        match h with
        | HProgram l =>
            xs ← a !! l; Program <$> mapM (reify fuel' a) xs
        | HExpressionStatement e => ExpressionStatement <$> go e
        | HCallExpression c l =>
            c' ← go c; xs ← a !! l;
            CallExpressionT c' <$> mapM (reify fuel' a) xs
        | HIdentifier name => Some (Identifier name)
        | HNumberLiteral value => Some (NumberLiteral value)
        | HStringLiteral value => Some (StringLiteral value)
        end
  end.

Definition transformer (ast : node) : outcome node :=
  (* [newAst.body] is the array at location 0, and
     [ast._context = newAst.body] *)
  let s0 := Store [[]] {[ [] := 0 ]} in
  let* s := traverser transformer_visitor ast s0 in
  (* [return newAst] *)
  match reify (S (length (arrays s))) (arrays s) (HProgram 0) with
  | Some newAst => Ok newAst
  | None => OutOfFuel
  end.

End Transformer.
Export Transformer.

(** ** The code generator *)

Module CodeGenerator.

(** [array.join(sep)] for an array of strings *)
Fixpoint join (sep : jsstring) (array : list jsstring) : jsstring :=
  match array with
  | [] => []
  | [x] => x
  | x :: array' => x ++ sep ++ join sep array'
  end.

Section Map.
Context {A B : Type} (f : A -> outcome B).
(** [array.map(f)], left to right, up to the first call that throws *)
Fixpoint map_outcome (array : list A) : outcome (list B) :=
  match array with
  | [] => Ok []
  | x :: array' =>
      let* y := f x in
      let* ys := map_outcome array' in
      Ok (y :: ys)
  end.
End Map.

(** Every object of type [node] has one of the six types of the [switch], so
    its [default] branch has no counterpart here. *)
Fixpoint codeGenerator (n : node) : outcome jsstring :=
  match n with
  | Program body =>
      let* lines := map_outcome codeGenerator body in
      Ok (join (js (String "010" EmptyString)) lines)
  | ExpressionStatement expression =>
      let* e := codeGenerator expression in
      Ok (e ++ js ";")
  | CallExpressionT callee arguments =>
      let* c := codeGenerator callee in
      let* args := map_outcome codeGenerator arguments in
      Ok (c ++ js "(" ++ join (js ", ") args ++ js ")")
  | CallExpression _ _ =>
      (* [node.callee] is undefined: [codeGenerator(undefined)] reads
         [node.type] of undefined *)
      Throw HostTypeError
  | Identifier name => Ok name
  | NumberLiteral value => Ok value
  | StringLiteral value => Ok ([quote] ++ value ++ [quote])
  end.

End CodeGenerator.
Export CodeGenerator.

(** ** The compiler *)

Definition compiler (input : jsstring) : outcome jsstring :=
  let* tokens := tokenizer input in
  let* ast := parser tokens in
  let* newAst := transformer ast in
  codeGenerator newAst.

(** ** Notions used in the statements *)

(** The expressions of the source language: literals and calls of
    expressions. *)
Fixpoint is_expr (n : node) : bool :=
  match n with
  | NumberLiteral _ | StringLiteral _ => true
  | CallExpression _ params => forallb is_expr params
  | _ => false
  end.

Definition open_paren : token := Token T_paren (js "(").
Definition close_paren : token := Token T_paren (js ")").

(** The tokens of an expression. *)
Fixpoint tokens_of (n : node) : list token :=
  match n with
  | NumberLiteral value => [Token T_number value]
  | StringLiteral value => [Token T_string value]
  | CallExpression name params =>
      open_paren :: Token T_name name
        :: flat_map tokens_of params ++ [close_paren]
  | _ => []
  end.

(** Token sequences that end inside a call: after the parenthesis, or after
    the callee and some complete parameters, or inside a parameter that is
    itself such a sequence. *)
Inductive open_call : list token -> Prop :=
| open_call_paren :
    open_call [open_paren]
| open_call_params callee params :
    Forall is_expr params ->
    open_call (open_paren :: callee :: flat_map tokens_of params)
| open_call_inner callee params inner :
    Forall is_expr params ->
    open_call inner ->
    open_call (open_paren :: callee :: flat_map tokens_of params ++ inner).

(** [parent.type !== 'CallExpression'], the test that decides whether a call
    becomes a statement. *)
Definition wraps (parent : node) : bool :=
  bool_decide (node_type parent <> js "CallExpression").

(** The target tree of an expression, written as a function of the
    expression and of whether its parent makes it a statement. *)
Fixpoint transform_expr (wrap : bool) (n : node) : node :=
  match n with
  | CallExpression name params =>
      let call :=
        CallExpressionT (Identifier name) (map (transform_expr false) params) in
      if wrap then ExpressionStatement call else call
  | _ => n
  end.

(** The arrays [ext], allocated from location [base] on, make the object [h]
    the tree [t]: wherever they lie in a store, reading [h] gives [t]. *)
Definition represents (base : nat) (ext : list (list hnode))
    (h : hnode) (t : node) : Prop :=
  forall pre post fuel,
    length pre = base -> length ext < fuel ->
    reify fuel (pre ++ ext ++ post) h = Some t.

Definition represents_all (base : nat) (ext : list (list hnode))
    (hs : list hnode) (ts : list node) : Prop :=
  forall pre post fuel,
    length pre = base -> length ext < fuel ->
    mapM (reify fuel (pre ++ ext ++ post)) hs = Some ts.

(** What a traversal by the transformer's visitor does to the store, for a
    node [e] with parent [p], and for the children [cs] of [p]: the object
    made for the node is pushed on the parent's array, at [l], the arrays it
    needs are allocated after the ones there are, and [_context] changes for
    the node and below it only. *)
Definition node_spec (e : node) : Prop :=
  forall r p s l,
    contexts s !! p.1 = Some l -> l < length (arrays s) ->
    ~ r `prefix_of` p.1 ->
    exists s' h ext,
      traverseNode transformer_visitor e r (Some p) s = Ok s' /\
      arrays s' = alter (fun a => a ++ [h]) l (arrays s) ++ ext /\
      represents (length (arrays s)) ext h (transform_expr (wraps p.2) e) /\
      (forall q, ~ r `prefix_of` q -> contexts s' !! q = contexts s !! q).

Definition array_spec (cs : list node) : Prop :=
  forall i p s l,
    contexts s !! p.1 = Some l -> l < length (arrays s) ->
    exists s' hs ext,
      traverseArray (traverseNode transformer_visitor) cs p i s = Ok s' /\
      arrays s' = alter (fun a => a ++ hs) l (arrays s) ++ ext /\
      represents_all (length (arrays s)) ext hs
        (map (transform_expr (wraps p.2)) cs) /\
      (forall q, (forall j, ~ (p.1 ++ [j]) `prefix_of` q) ->
                 contexts s' !! q = contexts s !! q).

(** No [ExpressionStatement] anywhere in the tree. *)
Fixpoint statement_free (n : node) : bool :=
  match n with
  | ExpressionStatement _ => false
  | Program body => forallb statement_free body
  | CallExpression _ params => forallb statement_free params
  | CallExpressionT callee arguments =>
      statement_free callee && forallb statement_free arguments
  | NumberLiteral _ | StringLiteral _ | Identifier _ => true
  end.

(** A top-level call of the source and its place in the target [body]: one
    [ExpressionStatement] around the call, none inside it.  Anything else at
    top level is there without a statement around or inside it. *)
Definition wrapped_once (source target : node) : Prop :=
  match source with
  | CallExpression name _ =>
      exists arguments,
        target = ExpressionStatement
                   (CallExpressionT (Identifier name) arguments) /\
        Forall statement_free arguments
  | _ => statement_free target
  end.

(** [newAst] in [compiler]. *)
Definition newAst_of (input : jsstring) : outcome node :=
  let* tokens := tokenizer input in
  let* ast := parser tokens in
  transformer ast.

(** The outer loop of the tokenizer gets from one cursor and [tokens] to
    another in some number of turns. *)
Inductive scans : jsstring -> list token -> jsstring -> list token -> Prop :=
| scans_here rest tokens :
    scans rest tokens rest tokens
| scans_step char rest' tokens rest1 tokens1 rest2 tokens2 :
    tokenizer_step (S (length rest')) char rest' tokens = Ok (rest1, tokens1) ->
    scans rest1 tokens1 rest2 tokens2 ->
    scans (char :: rest') tokens rest2 tokens2.

(** The place between [a] and [b] in the input [a ++ b] is between tokens
    when the outer loop comes to it: no token, and no string literal, begins
    in [a] and ends in [b]. *)
Definition token_boundary (a b : jsstring) : Prop :=
  exists tokens, scans (a ++ b) [] b tokens.

(** Two continuations of the input on which a number and a name end alike. *)
Definition same_stop (y y' : jsstring) : Prop :=
  (NUMBERS (head y) = false -> NUMBERS (head y') = false) /\
  (LETTERS (head y) = false -> LETTERS (head y') = false).

(** ** Notions used in the further properties *)

(** A code unit that none of the tests of the tokenizer accepts. *)
Definition unknown_character (c : code_unit) : bool :=
  negb (c =? 40)%N && negb (c =? 41)%N && negb (is_whitespace c)
  && negb (is_digit c) && negb (c =? quote)%N && negb (is_letter c).

(** What is left of the input has no end for the tokenizer: a name that runs
    to the end, or a string literal that is not closed. *)
Definition stuck (rest : jsstring) : Prop :=
  (rest <> [] /\ Forall (fun c => is_letter c = true) rest) \/
  (exists text, rest = quote :: text /\ quote ∉ text).

(** How a run of the outer loop ends at the cursor [rest] with [tokens]. *)
Inductive halts (tokens : list token)
    : jsstring -> outcome (list token) -> Prop :=
| halts_end :
    halts tokens [] (Ok tokens)
| halts_unknown c rest :
    unknown_character c = true ->
    halts tokens (c :: rest)
      (Throw (TypeError (js "I dont know what this character is: " ++ [c])))
| halts_stuck rest :
    stuck rest ->
    halts tokens rest OutOfFuel.

(** The tokens the tokenizer makes: a parenthesis, a number of one digit or
    more, a string without a double quote, a name of one letter or more. *)
Definition well_formed (t : token) : Prop :=
  match type t with
  | T_paren => value t = js "(" \/ value t = js ")"
  | T_number => value t <> [] /\ Forall (fun c => is_digit c = true) (value t)
  | T_string => quote ∉ value t
  | T_name => value t <> [] /\ Forall (fun c => is_letter c = true) (value t)
  end.

(** The text of a token in the input. *)
Definition lexeme (t : token) : jsstring :=
  match type t with
  | T_string => [quote] ++ value t ++ [quote]
  | _ => value t
  end.

(** The input is the texts of the tokens, in order, with whitespace (or
    nothing) before, between and after them. *)
Inductive spaced : list token -> jsstring -> Prop :=
| spaced_end w :
    Forall (fun c => is_whitespace c = true) w ->
    spaced [] w
| spaced_token w t tokens rest :
    Forall (fun c => is_whitespace c = true) w ->
    spaced tokens rest ->
    spaced (t :: tokens) (w ++ lexeme t ++ rest).

(** The texts of the tokens, a space after each. *)
Definition text_of_tokens (tokens : list token) : jsstring :=
  flat_map (fun t => lexeme t ++ [32%N]) tokens.

(** A token that begins no expression and closes no call: a name, or a
    parenthesis token whose text is neither parenthesis. *)
Definition unexpected (t : token) : bool :=
  match type t with
  | T_name => true
  | T_paren =>
      negb (bool_decide (value t = js "("))
      && negb (bool_decide (value t = js ")"))
  | _ => false
  end.

(** Token sequences after which the parser is inside a call, at the place of
    a parameter. *)
Inductive expecting : list token -> Prop :=
| expecting_params callee params :
    Forall is_expr params ->
    expecting (open_paren :: callee :: flat_map tokens_of params)
| expecting_inner callee params inner :
    Forall is_expr params ->
    expecting inner ->
    expecting (open_paren :: callee :: flat_map tokens_of params ++ inner).

(** The trees made of the four node types of the traverser's [switch], with
    the properties it reads. *)
Fixpoint source_shaped (n : node) : bool :=
  match n with
  | Program body => forallb source_shaped body
  | CallExpression _ params => forallb source_shaped params
  | NumberLiteral _ | StringLiteral _ => true
  | ExpressionStatement _ | CallExpressionT _ _ | Identifier _ => false
  end.

(** The visitor [{}]. *)
Definition no_visitor {state : Type} : visitor state := fun _ => None.

(** A visitor that writes down every call of [enter] and [exit], with the
    node and the parent it is given. *)
Inductive event : Type :=
| Enter (n : node) (parent : option node)
| Exit (n : node) (parent : option node).

Definition record (e : node -> option node -> event) : callback (list event) :=
  fun node parent s => Ok (s ++ [e node.2 (snd <$> parent)]).

Definition recording_visitor : visitor (list event) :=
  fun _ => Some (Methods (Some (record Enter)) (Some (record Exit))).

(** The calls in depth-first order: [enter] of a node, then its children
    from left to right, then its [exit]. *)
Fixpoint trace (parent : option node) (n : node) : list event :=
  match n with
  | Program body =>
      Enter n parent :: flat_map (trace (Some n)) body ++ [Exit n parent]
  | CallExpression _ params =>
      Enter n parent :: flat_map (trace (Some n)) params ++ [Exit n parent]
  | _ => [Enter n parent; Exit n parent]
  end.

Definition is_call (n : node) : bool :=
  match n with
  | CallExpression _ _ => true
  | _ => false
  end.

(** The text of an expression in the target language. *)
Fixpoint expr_text (n : node) : jsstring :=
  match n with
  | CallExpression name params =>
      name ++ js "(" ++ join (js ", ") (map expr_text params) ++ js ")"
  | NumberLiteral value => value
  | StringLiteral value => [quote] ++ value ++ [quote]
  | _ => []
  end.

(** A call at top level is a statement, with a semicolon. *)
Definition statement_text (n : node) : jsstring :=
  if is_call n then expr_text n ++ js ";" else expr_text n.

(** One line for each expression at top level. *)
Definition program_text (body : list node) : jsstring :=
  join (js (String "010" EmptyString)) (map statement_text body).

(** The tokens a node of the source tree is read from.  The token after
    the opening parenthesis of a call may be any token: its text is the
    name of the call. *)
Inductive derives : list token -> node -> Prop :=
| derives_number value :
    derives [Token T_number value] (NumberLiteral value)
| derives_string value :
    derives [Token T_string value] (StringLiteral value)
| derives_call callee tokens params :
    derives_all tokens params ->
    derives (open_paren :: callee :: tokens ++ [close_paren])
      (CallExpression (value callee) params)
with derives_all : list token -> list node -> Prop :=
| derives_nil :
    derives_all [] []
| derives_cons tokens n tokens' ns :
    derives tokens n ->
    derives_all tokens' ns ->
    derives_all (tokens ++ tokens') (n :: ns).

(** Induction over trees, with the hypothesis for every child. *)
Section NodeInduction.
Variable P : node -> Prop.
Hypothesis HProgram' : forall body, Forall P body -> P (Program body).
Hypothesis HCall : forall name params,
  Forall P params -> P (CallExpression name params).
Hypothesis HNumber : forall value, P (NumberLiteral value).
Hypothesis HString : forall value, P (StringLiteral value).
Hypothesis HStatement : forall e, P e -> P (ExpressionStatement e).
Hypothesis HCallT : forall callee arguments,
  P callee -> Forall P arguments -> P (CallExpressionT callee arguments).
Hypothesis HIdent : forall name, P (Identifier name).

Fixpoint node_ind' (n : node) : P n :=
  let all := fix all (l : list node) : Forall P l :=
    match l with
    | [] => List.Forall_nil P
    | x :: l' => List.Forall_cons P x l' (node_ind' x) (all l')
    end in
  match n with
  | Program body => HProgram' body (all body)
  | CallExpression name params => HCall name params (all params)
  | NumberLiteral value => HNumber value
  | StringLiteral value => HString value
  | ExpressionStatement e => HStatement e (node_ind' e)
  | CallExpressionT callee arguments =>
      HCallT callee arguments (node_ind' callee) (all arguments)
  | Identifier name => HIdent name
  end.
End NodeInduction.

(** * Properties *)

(** ** The tokenizer *)

Section TokenizerFacts.
Local Open Scope N_scope.

Lemma test_Some class c : test class (Some c) = class c.
Proof. unfold test. simpl. apply orb_false_r. Qed.

Lemma NUMBERS_None : NUMBERS None = false.
Proof. reflexivity. Qed.

Lemma LETTERS_None : LETTERS None = true.
Proof. reflexivity. Qed.

(** A loop whose test accepts [undefined] never leaves the end of the
    input. *)
Lemma scan_while_end cond fuel value :
  cond None = true -> scan_while cond fuel value [] = OutOfFuel.
Proof.
  intros Hc. revert value.
  induction fuel as [|fuel IH]; intros value; simpl; rewrite Hc; auto.
Qed.

Lemma scan_while_run cond r1 : forall rest' fuel value,
  Forall (fun c => cond (Some c) = true) r1 ->
  cond (head rest') = false ->
  (length r1 <= fuel)%nat ->
  scan_while cond fuel value (r1 ++ rest') = Ok (value ++ r1, rest').
Proof.
  induction r1 as [|c r1 IH]; intros rest' fuel value Hall Hstop Hfuel.
  - rewrite app_nil_r. destruct fuel; simpl; rewrite Hstop; reflexivity.
  - inversion Hall as [|? ? Hc Hall']; subst.
    destruct fuel as [|fuel]; simpl in Hfuel; [lia|].
    simpl. rewrite Hc. simpl in IH.
    rewrite IH by (auto; lia).
    rewrite <- app_assoc. reflexivity.
Qed.

Lemma scan_while_Ok cond : forall fuel value rest value' rest',
  scan_while cond fuel value rest = Ok (value', rest') ->
  exists r1,
    rest = r1 ++ rest' /\ value' = value ++ r1 /\
    Forall (fun c => cond (Some c) = true) r1 /\
    cond (head rest') = false /\ (length r1 <= fuel)%nat.
Proof.
  induction fuel as [|fuel IH]; intros value rest value' rest' H.
  - simpl in H. destruct (cond (head rest)) eqn:Hc; [discriminate|].
    injection H as <- <-. exists []. rewrite app_nil_r. auto.
  - simpl in H. destruct (cond (head rest)) eqn:Hc.
    + destruct rest as [|c rest].
      * simpl in Hc. rewrite scan_while_end in H by assumption. discriminate.
      * simpl in H, Hc. apply IH in H as (r1 & -> & -> & Hall & Hstop & Hlen).
        exists (c :: r1). rewrite <- app_assoc. simpl.
        repeat split; auto. lia.
    + injection H as <- <-. exists []. rewrite app_nil_r.
      repeat split; auto. simpl. lia.
Qed.

Lemma scan_while_no_throw cond : forall fuel value rest e,
  scan_while cond fuel value rest <> Throw e.
Proof.
  induction fuel as [|fuel IH]; intros value rest e; simpl;
    destruct (cond (head rest)); try discriminate. apply IH.
Qed.

(** More fuel than the input is long changes nothing. *)
Lemma scan_while_fuel cond : forall rest fuel value,
  (length rest <= fuel)%nat ->
  scan_while cond fuel value rest = scan_while cond (length rest) value rest.
Proof.
  induction rest as [|c rest IH]; intros fuel value Hfuel.
  - destruct (cond None) eqn:Hc.
    + rewrite !scan_while_end by assumption. reflexivity.
    + destruct fuel; simpl; rewrite Hc; reflexivity.
  - destruct fuel as [|fuel]; simpl in Hfuel; [lia|].
    simpl. destruct (cond (Some c)); [|reflexivity].
    apply IH. lia.
Qed.

Lemma scan_while_mono cond : forall fuel fuel' value rest r,
  scan_while cond fuel value rest = Ok r -> (fuel <= fuel')%nat ->
  scan_while cond fuel' value rest = Ok r.
Proof.
  intros fuel fuel' value rest [value' rest'] H Hle.
  apply scan_while_Ok in H as (r1 & -> & -> & Hall & Hstop & Hlen).
  apply scan_while_run; auto. lia.
Qed.

(** The character classes of the tokenizer exclude each other. *)
Local Ltac classes :=
  unfold is_whitespace, is_digit, is_letter, quote in *;
  repeat match goal with
  | H : _ && _ = true |- _ => apply andb_true_iff in H as [? ?]
  | H : (_ <=? _) = true |- _ => apply N.leb_le in H
  | H : (_ =? _) = true |- _ => apply N.eqb_eq in H
  end;
  repeat match goal with
  | |- context [N.eqb ?a ?b] => destruct (N.eqb_spec a b); [lia|]
  | |- context [N.leb ?a ?b] => destruct (N.leb_spec a b); try lia
  end;
  try reflexivity.

Lemma digit_class c :
  is_digit c = true ->
  (c =? 40) = false /\ (c =? 41) = false /\ is_whitespace c = false.
Proof. intros H. repeat split; classes. Qed.

Lemma whitespace_class c :
  is_whitespace c = true ->
  (c =? 40) = false /\ (c =? 41) = false /\
  is_digit c = false /\ is_letter c = false.
Proof.
  intros H. unfold is_whitespace in H.
  repeat (apply orb_true_iff in H as [H|H]);
    repeat split; classes.
Qed.

Lemma tokenizer_step_fuel fuel char rest' tokens :
  (S (length rest') <= fuel)%nat ->
  tokenizer_step fuel char rest' tokens
  = tokenizer_step (S (length rest')) char rest' tokens.
Proof.
  intros Hfuel. unfold tokenizer_step.
  rewrite (scan_while_fuel NUMBERS (char :: rest') fuel) by (simpl; lia).
  rewrite (scan_while_fuel LETTERS (char :: rest') fuel) by (simpl; lia).
  rewrite (scan_while_fuel not_quote rest' fuel) by lia.
  rewrite (scan_while_fuel not_quote rest' (S (length rest'))) by lia.
  reflexivity.
Qed.

(** What a turn of the outer loop has read, [char :: x'], and that it does
    the same in front of every continuation on which numbers and names end
    alike. *)
Lemma tokenizer_step_move fuel char rest' tokens y tokens1 :
  tokenizer_step fuel char rest' tokens = Ok (y, tokens1) ->
  exists x',
    rest' = x' ++ y /\
    forall y' fuel',
      same_stop y y' -> (S (length x') <= fuel')%nat ->
      tokenizer_step fuel' char (x' ++ y') tokens = Ok (y', tokens1).
Proof.
  unfold tokenizer_step. intros H.
  assert (Hscan : forall cond value,
    cond (Some char) = true ->
    scan_while cond fuel [] (char :: rest') = Ok (value, y) ->
    exists x', rest' = x' ++ y /\ forall y' fuel',
      cond (head y') = false -> (S (length x') <= fuel')%nat ->
      scan_while cond fuel' [] (char :: x' ++ y') = Ok (value, y')).
  { intros cond value Hc Hs.
    apply scan_while_Ok in Hs as (r1 & Heq & -> & Hall & Hstop & _).
    destruct r1 as [|c r1]; simpl in Heq.
    - subst y. simpl in Hstop. congruence.
    - injection Heq as <- ->. exists r1. split; [reflexivity|].
      intros y' fuel' Hstop' Hfuel.
      apply (scan_while_run cond (char :: r1) y' fuel' []); auto. }
  repeat match type of H with
  | (if ?b then _ else _) = _ => destruct b eqn:?
  end; try discriminate.
  - injection H as <- <-. exists []. split; [reflexivity|]. reflexivity.
  - injection H as <- <-. exists []. split; [reflexivity|]. reflexivity.
  - injection H as <- <-. exists []. split; [reflexivity|]. reflexivity.
  - destruct (scan_while NUMBERS fuel [] (char :: rest')) as [[v r]| |] eqn:Hs;
      simpl in H; try discriminate.
    injection H as <- <-.
    destruct (Hscan NUMBERS v) as (x' & -> & Hrun); auto.
    exists x'. split; [reflexivity|]. intros y' fuel' [Hn _] Hfuel.
    rewrite Hrun; auto.
    apply scan_while_Ok in Hs as (_ & _ & _ & _ & Hstop & _). auto.
  - destruct (scan_while not_quote fuel [] rest') as [[v r]| |] eqn:Hs;
      simpl in H; try discriminate.
    injection H as <- <-.
    apply scan_while_Ok in Hs as (r1 & -> & -> & Hall & Hstop & _).
    destruct r as [|c r]; [discriminate|]. simpl in Hstop.
    apply negb_false_iff, N.eqb_eq in Hstop as ->.
    exists (r1 ++ [quote]). split; [by rewrite <- app_assoc|].
    intros y' fuel' _ Hfuel. rewrite length_app in Hfuel. simpl in Hfuel.
    rewrite <- app_assoc. cbn [app].
    rewrite scan_while_run; [reflexivity|assumption|reflexivity|lia].
  - destruct (scan_while LETTERS fuel [] (char :: rest')) as [[v r]| |] eqn:Hs;
      simpl in H; try discriminate.
    injection H as <- <-.
    destruct (Hscan LETTERS v) as (x' & -> & Hrun); auto.
    exists x'. split; [reflexivity|]. intros y' fuel' [_ Hl] Hfuel.
    rewrite Hrun; auto.
    apply scan_while_Ok in Hs as (_ & _ & _ & _ & Hstop & _). auto.
Qed.

(** A turn of the loop that returns has moved the cursor forward. *)
Lemma tokenizer_step_shorter fuel char rest' tokens rest1 tokens1 :
  tokenizer_step fuel char rest' tokens = Ok (rest1, tokens1) ->
  (length rest1 <= length rest')%nat.
Proof.
  intros H. apply tokenizer_step_move in H as (x' & -> & _).
  rewrite length_app. lia.
Qed.

(** More fuel than the input is long changes nothing: the fuel given in
    [tokenizer] decides the input. *)
Lemma tokenizer_loop_fuel : forall n rest,
  (length rest <= n)%nat ->
  forall fuel tokens,
  (length rest < fuel)%nat ->
  tokenizer_loop fuel rest tokens = tokenizer_loop (S (length rest)) rest tokens.
Proof.
  induction n as [|n IH]; intros rest Hn fuel tokens Hfuel.
  - destruct rest; [|simpl in Hn; lia]. destruct fuel; reflexivity.
  - destruct rest as [|char rest']; [destruct fuel; reflexivity|].
    destruct fuel as [|fuel]; [lia|]. simpl in Hn, Hfuel.
    cbn [tokenizer_loop length].
    rewrite (tokenizer_step_fuel fuel) by lia.
    destruct (tokenizer_step (S (length rest')) char rest' tokens)
      as [[rest1 tokens1]| |] eqn:Hstep; simpl; try reflexivity.
    apply tokenizer_step_shorter in Hstep.
    transitivity (tokenizer_loop (S (length rest1)) rest1 tokens1).
    + apply IH; lia.
    + symmetry.
      exact (IH rest1 ltac:(lia) (S (length rest')) tokens1 ltac:(lia)).
Qed.

Lemma tokenizer_step_mono fuel fuel' char rest' tokens r :
  tokenizer_step fuel char rest' tokens = r -> r <> OutOfFuel ->
  (fuel <= fuel')%nat ->
  tokenizer_step fuel' char rest' tokens = r.
Proof.
  unfold tokenizer_step. intros H Hr Hle.
  assert (Hscan : forall cond value rest,
    scan_while cond fuel value rest <> OutOfFuel ->
    scan_while cond fuel' value rest = scan_while cond fuel value rest).
  { intros cond value rest Hs.
    destruct (scan_while cond fuel value rest) as [[v r']|e|] eqn:E.
    - eapply scan_while_mono; eauto.
    - exfalso. eapply scan_while_no_throw; eauto.
    - congruence. }
  repeat match type of H with
  | (if ?b then _ else _) = _ => destruct b eqn:?
  end; try assumption.
  - rewrite Hscan; [assumption|]. intros E. rewrite E in H. exact (Hr (eq_sym H)).
  - rewrite Hscan; [assumption|]. intros E. rewrite E in H. exact (Hr (eq_sym H)).
  - rewrite Hscan; [assumption|]. intros E. rewrite E in H. exact (Hr (eq_sym H)).
Qed.

(** A run that returns or throws does the same with more fuel ... *)
Lemma tokenizer_loop_mono : forall fuel fuel' rest tokens,
  tokenizer_loop fuel rest tokens <> OutOfFuel -> (fuel <= fuel')%nat ->
  tokenizer_loop fuel' rest tokens = tokenizer_loop fuel rest tokens.
Proof.
  induction fuel as [|fuel IH]; intros fuel' rest tokens H Hle.
  - destruct rest; [destruct fuel'; reflexivity|]. simpl in H. congruence.
  - destruct rest as [|char rest']; [destruct fuel'; reflexivity|].
    destruct fuel' as [|fuel']; [lia|].
    cbn [tokenizer_loop] in *.
    destruct (tokenizer_step fuel char rest' tokens) as [[r1 t1]|e|] eqn:Hstep;
      simpl in H; try congruence.
    + erewrite tokenizer_step_mono; [|eassumption|discriminate|lia].
      simpl. apply IH; [assumption|lia].
    + erewrite tokenizer_step_mono; [|eassumption|discriminate|lia].
      reflexivity.
Qed.

(** ... so [OutOfFuel] from [tokenizer] is a run that no fuel ends. *)
Lemma tokenizer_diverges input :
  tokenizer input = OutOfFuel <->
  forall fuel, tokenizer_loop fuel input [] = OutOfFuel.
Proof.
  unfold tokenizer. split; [|auto].
  intros H fuel.
  destruct (Nat.lt_ge_cases (length input) fuel) as [Hlt|Hge].
  - rewrite (tokenizer_loop_fuel (length input)) by auto. assumption.
  - destruct (tokenizer_loop fuel input []) eqn:E; [| |reflexivity].
    + rewrite (tokenizer_loop_mono fuel) in H by (try lia; congruence). congruence.
    + rewrite (tokenizer_loop_mono fuel) in H by (try lia; congruence). congruence.
Qed.

Lemma tokenizer_step_digit fuel c rest' tokens :
  is_digit c = true ->
  tokenizer_step fuel c rest' tokens
  = let* '(value, rest1) := scan_while NUMBERS fuel [] (c :: rest') in
    Ok (rest1, tokens ++ [Token T_number value]).
Proof.
  intros H. destruct (digit_class c H) as (H40 & H41 & Hws).
  unfold tokenizer_step, WHITESPACE, NUMBERS.
  rewrite H40, H41, !test_Some, Hws, H. reflexivity.
Qed.

Lemma tokenizer_step_quote fuel rest' tokens :
  tokenizer_step fuel quote rest' tokens
  = let* '(value, rest1) := scan_while not_quote fuel [] rest' in
    Ok (tail rest1, tokens ++ [Token T_string value]).
Proof. reflexivity. Qed.

Lemma tokenizer_step_whitespace fuel c rest' tokens :
  is_whitespace c = true ->
  tokenizer_step fuel c rest' tokens = Ok (rest', tokens).
Proof.
  intros H. destruct (whitespace_class c H) as (H40 & H41 & _).
  unfold tokenizer_step, WHITESPACE. rewrite H40, H41, test_Some, H.
  reflexivity.
Qed.

(** A number alone is one token, also at the end of the input. *)
Lemma tokenizer_number value :
  value <> [] -> Forall (fun c => is_digit c = true) value ->
  tokenizer value = Ok [Token T_number value].
Proof.
  intros Hne Hall. destruct value as [|c value]; [congruence|].
  inversion Hall as [|? ? Hc Hall']; subst.
  unfold tokenizer. cbn [tokenizer_loop length].
  rewrite tokenizer_step_digit by assumption.
  rewrite <- (app_nil_r (c :: value)) at 1.
  rewrite scan_while_run; [reflexivity| |reflexivity|simpl; lia].
  eapply Forall_impl; [exact Hall|]. intros x Hx. unfold NUMBERS.
  rewrite test_Some. exact Hx.
Qed.

(** A string literal alone is one token. *)
Lemma tokenizer_string value :
  quote ∉ value ->
  tokenizer ([quote] ++ value ++ [quote]) = Ok [Token T_string value].
Proof.
  intros Hq. unfold tokenizer. cbn [app tokenizer_loop length].
  rewrite tokenizer_step_quote.
  rewrite scan_while_run; [reflexivity| |reflexivity|rewrite length_app; lia].
  apply Forall_forall. intros c Hc. simpl.
  apply negb_true_iff, N.eqb_neq. intros ->. contradiction.
Qed.

Lemma letter_class c :
  is_letter c = true ->
  (c =? 40) = false /\ (c =? 41) = false /\ is_whitespace c = false /\
  is_digit c = false /\ (c =? quote) = false.
Proof.
  intros H. unfold is_letter in H.
  apply orb_true_iff in H as [H|H]; repeat split; classes.
Qed.

Lemma tokenizer_step_letter fuel c rest' tokens :
  is_letter c = true ->
  tokenizer_step fuel c rest' tokens
  = let* '(value, rest1) := scan_while LETTERS fuel [] (c :: rest') in
    Ok (rest1, tokens ++ [Token T_name value]).
Proof.
  intros H. destruct (letter_class c H) as (H40 & H41 & Hws & Hd & Hq).
  unfold tokenizer_step, WHITESPACE, NUMBERS, LETTERS.
  rewrite H40, H41, Hq, !test_Some, Hws, Hd, H. reflexivity.
Qed.

(** A loop whose test accepts [undefined] and every code unit that is left
    runs past the end of the input and does not come back. *)
Lemma scan_while_past_end cond rest : forall fuel value,
  cond None = true -> Forall (fun c => cond (Some c) = true) rest ->
  scan_while cond fuel value rest = OutOfFuel.
Proof.
  induction rest as [|c rest IH]; intros fuel value Hend Hall.
  - by apply scan_while_end.
  - inversion Hall as [|? ? Hc Hall']; subst.
    destruct fuel as [|fuel]; simpl; rewrite Hc; [reflexivity|].
    by apply IH.
Qed.

(** The loop of a name that reaches the end of the input has no end. *)
Lemma tokenizer_loop_name_at_end fuel letters tokens :
  letters <> [] -> Forall (fun c => is_letter c = true) letters ->
  tokenizer_loop fuel letters tokens = OutOfFuel.
Proof.
  intros Hne Hall. destruct letters as [|c letters]; [congruence|].
  destruct fuel as [|fuel]; [reflexivity|].
  cbn [tokenizer_loop].
  rewrite tokenizer_step_letter by (by inversion Hall).
  rewrite scan_while_past_end; [reflexivity|reflexivity|].
  eapply Forall_impl; [exact Hall|]. intros x Hx.
  unfold LETTERS. by rewrite test_Some.
Qed.

(** The loop of a string literal with no closing quote has no end. *)
Lemma tokenizer_loop_open_string fuel text tokens :
  quote ∉ text ->
  tokenizer_loop fuel (quote :: text) tokens = OutOfFuel.
Proof.
  intros Hq. destruct fuel as [|fuel]; [reflexivity|].
  cbn [tokenizer_loop]. rewrite tokenizer_step_quote.
  rewrite scan_while_past_end; [reflexivity|reflexivity|].
  apply Forall_forall. intros c Hc. simpl.
  apply negb_true_iff, N.eqb_neq. intros ->. contradiction.
Qed.

Lemma tokenizer_loop_cons fuel char rest' tokens :
  tokenizer_loop (S fuel) (char :: rest') tokens
  = let* '(rest1, tokens1) := tokenizer_step fuel char rest' tokens in
    tokenizer_loop fuel rest1 tokens1.
Proof. reflexivity. Qed.

Lemma scans_suffix rest tokens rest' tokens' :
  scans rest tokens rest' tokens' -> exists x, rest = x ++ rest'.
Proof.
  induction 1 as [|char rest' tokens r1 t1 r2 t2 Hstep _ [x ->]].
  - by exists [].
  - apply tokenizer_step_move in Hstep as (x' & -> & _).
    exists (char :: x' ++ x). simpl. by rewrite <- app_assoc.
Qed.

Lemma scans_trans r1 t1 r2 t2 r3 t3 :
  scans r1 t1 r2 t2 -> scans r2 t2 r3 t3 -> scans r1 t1 r3 t3.
Proof. induction 1; eauto using scans. Qed.

(** The tokenizer goes on from wherever its outer loop comes to. *)
Lemma scans_tokenizer_loop rest tokens rest' tokens' :
  scans rest tokens rest' tokens' ->
  tokenizer_loop (S (length rest)) rest tokens
  = tokenizer_loop (S (length rest')) rest' tokens'.
Proof.
  induction 1 as [|char rest' tokens r1 t1 r2 t2 Hstep _ IH]; [reflexivity|].
  cbn [length]. rewrite tokenizer_loop_cons, Hstep. cbn [bind].
  apply tokenizer_step_shorter in Hstep.
  rewrite (tokenizer_loop_fuel (length r1)) by lia. exact IH.
Qed.

Lemma scans_whitespace w rest tokens :
  Forall (fun c => is_whitespace c = true) w ->
  scans (w ++ rest) tokens rest tokens.
Proof.
  induction 1 as [|c w Hc _ IH]; [constructor|].
  eapply scans_step; [|exact IH]. by apply tokenizer_step_whitespace.
Qed.

Lemma same_stop_whitespace x w b :
  Forall (fun c => is_whitespace c = true) w ->
  same_stop (x ++ b) (x ++ w ++ b).
Proof.
  intros Hw. destruct x as [|c x]; [|split; auto].
  destruct Hw as [|c w Hc _]; [split; auto|].
  destruct (whitespace_class c Hc) as (_ & _ & Hd & Hl).
  unfold same_stop. change (head ([] ++ (c :: w) ++ b)) with (Some c).
  unfold NUMBERS, LETTERS. rewrite !test_Some, Hd, Hl. by split.
Qed.

(** Whitespace put where the outer loop comes by: the loop comes to the
    whitespace with the same tokens. *)
Lemma scans_insert rest tokens b tokens' :
  scans rest tokens b tokens' ->
  forall x w,
  rest = x ++ b -> Forall (fun c => is_whitespace c = true) w ->
  scans (x ++ w ++ b) tokens (w ++ b) tokens'.
Proof.
  induction 1 as [rest tokens|char rest' tokens r1 t1 r2 t2 Hstep Hscans IH];
    intros x w Heq Hw.
  - assert (x = []) as ->.
    { apply (f_equal length) in Heq. rewrite length_app in Heq.
      destruct x; [reflexivity|simpl in Heq; lia]. }
    constructor.
  - destruct (scans_suffix _ _ _ _ Hscans) as [x1 ->].
    apply tokenizer_step_move in Hstep as (x' & -> & Hmove).
    assert (x = char :: x' ++ x1) as ->.
    { apply (app_inv_tail r2). rewrite <- Heq. simpl.
      by rewrite <- app_assoc. }
    cbn [app]. rewrite <- app_assoc.
    eapply scans_step; [|by apply IH].
    apply Hmove; [by apply same_stop_whitespace|].
    rewrite length_app. lia.
Qed.

(** A run of the tokenizer that returns is a sequence of turns of the outer
    loop to the end of the input, so the end of an accepted input is a place
    between tokens. *)
Lemma tokenizer_loop_scans : forall fuel rest tokens tokens',
  tokenizer_loop fuel rest tokens = Ok tokens' ->
  scans rest tokens [] tokens'.
Proof.
  induction fuel as [|fuel IH]; intros rest tokens tokens' H;
    (destruct rest as [|char rest']; [injection H as <-; constructor|]);
    [discriminate|].
  rewrite tokenizer_loop_cons in H.
  destruct (tokenizer_step fuel char rest' tokens) as [[r1 t1]| |] eqn:Hstep;
    [|discriminate..].
  cbn [bind] in H. eapply scans_step; [|exact (IH _ _ _ H)].
  rewrite <- (tokenizer_step_fuel (Nat.max fuel (S (length rest'))))
    by lia.
  eapply tokenizer_step_mono; [exact Hstep|discriminate|lia].
Qed.

Lemma tokenizer_Ok_boundary input tokens :
  tokenizer input = Ok tokens -> token_boundary input [].
Proof.
  intros H. exists tokens. rewrite app_nil_r.
  eapply tokenizer_loop_scans, H.
Qed.

End TokenizerFacts.

(** C5, at an input the code does not handle: on the input made of a double
    quote and [foo], with no closing quote, the loop of the string literal
    reads [undefined] past the end of the input for ever, whatever the fuel;
    there is no error for the unterminated literal. *)
Theorem tokenizer_open_string_never_returns :
  forall fuel, tokenizer_loop fuel ([quote] ++ js "foo") [] = OutOfFuel.
Proof.
  intros fuel. apply tokenizer_loop_open_string.
  intros H. apply list_elem_of_In in H. vm_compute in H.
  repeat destruct H as [H|H]; try discriminate H. exact H.
Qed.

(** C7, at an input the code does not handle: on the input [add], a name
    that runs to the end of the input, the loop of the name reads [undefined]
    past the end for ever, whatever the fuel, and no name token comes out
    (a number that runs to the end is one token, [tokenizer_number]). *)
Theorem tokenizer_name_at_end_never_returns :
  forall fuel, tokenizer_loop fuel (js "add") [] = OutOfFuel.
Proof.
  intros fuel. apply tokenizer_loop_name_at_end; [discriminate|].
  repeat constructor.
Qed.

(** ** The parser *)

Section ParserFacts.

Lemma is_expr_call name params :
  is_expr (CallExpression name params) <-> Forall is_expr params.
Proof.
  simpl. rewrite Is_true_true, forallb_forall, Forall_forall.
  split; intros H x Hx.
  - apply Is_true_true, H, list_elem_of_In, Hx.
  - apply Is_true_true, H, list_elem_of_In, Hx.
Qed.

(** The first token of an expression does not close a call. *)
Lemma tokens_of_head e :
  is_expr e -> exists t ts, tokens_of e = t :: ts /\ closes t = false.
Proof.
  destruct e; simpl; try contradiction; intros _; eauto.
Qed.

Lemma tokens_of_length e : is_expr e -> (1 <= length (tokens_of e))%nat.
Proof.
  intros H. destruct (tokens_of_head e H) as (t & ts & -> & _). simpl. lia.
Qed.

Lemma flat_map_tokens_length params :
  Forall is_expr params ->
  (length params <= length (flat_map tokens_of params))%nat.
Proof.
  induction 1 as [|p params Hp _ IH]; simpl; [lia|].
  rewrite length_app. pose proof (tokens_of_length p Hp). lia.
Qed.

Lemma params_loop_step fuel acc t ts :
  closes t = false ->
  params_loop (S fuel) acc (t :: ts)
  = let* '(n, rest) := walk fuel (t :: ts) in
    params_loop fuel (acc ++ [n]) rest.
Proof. intros H. cbn [params_loop]. rewrite H. reflexivity. Qed.

(** The loop over the parameters, run over complete parameters: they are
    appended, one unit of fuel each. *)
Lemma params_loop_params params :
  Forall (fun e => is_expr e /\ forall fuel rest,
            (2 * length (tokens_of e) <= fuel)%nat ->
            walk fuel (tokens_of e ++ rest) = Ok (e, rest)) params ->
  forall fuel acc rest,
  (2 * length (flat_map tokens_of params) + 1 <= fuel)%nat ->
  params_loop fuel acc (flat_map tokens_of params ++ rest)
  = params_loop (fuel - length params) (acc ++ params) rest.
Proof.
  induction 1 as [|p params [Hp Hwalk] _ IH]; intros fuel acc rest Hfuel.
  - simpl. rewrite Nat.sub_0_r, app_nil_r. reflexivity.
  - simpl in *. rewrite length_app in Hfuel.
    destruct fuel as [|fuel]; [lia|].
    destruct (tokens_of_head p Hp) as (t & ts & Hts & Hclose).
    rewrite <- app_assoc.
    pose proof (Hwalk fuel (flat_map tokens_of params ++ rest)
                  ltac:(lia)) as Hw.
    pose proof (tokens_of_length p Hp) as Hlen.
    rewrite Hts in Hw, Hfuel, Hlen |- *. cbn [app] in Hw |- *.
    rewrite params_loop_step by assumption.
    rewrite Hw. cbn [bind].
    rewrite IH by lia. rewrite <- app_assoc. reflexivity.
Qed.

(** [walk] reads back the tokens of an expression. *)
Lemma walk_tokens_of e :
  is_expr e -> forall fuel rest,
  (2 * length (tokens_of e) <= fuel)%nat ->
  walk fuel (tokens_of e ++ rest) = Ok (e, rest).
Proof.
  induction e as [| name params IH | | | | |] using node_ind';
    try contradiction; intros He fuel rest Hfuel.
  - apply is_expr_call in He.
    simpl in Hfuel. rewrite length_app in Hfuel. simpl in Hfuel.
    destruct fuel as [|fuel]; [lia|].
    cbn [tokens_of app walk type value open_paren].
    rewrite bool_decide_eq_true_2 by reflexivity.
    rewrite <- app_assoc.
    rewrite params_loop_params; [| |lia].
    + pose proof (flat_map_tokens_length params He).
      destruct (fuel - length params)%nat as [|fuel'] eqn:E; [lia|].
      reflexivity.
    + rewrite Forall_forall in *. intros p Hp. split; [auto|].
      intros fuel' rest'. apply IH; auto.
  - destruct fuel; [simpl in Hfuel; lia|]. reflexivity.
  - destruct fuel; [simpl in Hfuel; lia|]. reflexivity.
Qed.

Lemma params_loop_tokens_of params fuel acc rest :
  Forall is_expr params ->
  (2 * length (flat_map tokens_of params) + 1 <= fuel)%nat ->
  params_loop fuel acc (flat_map tokens_of params ++ rest)
  = params_loop (fuel - length params) (acc ++ params) rest.
Proof.
  intros H. apply params_loop_params.
  eapply Forall_impl; [exact H|].
  intros e He. split; [assumption|]. intros. by apply walk_tokens_of.
Qed.

(** What [walk] returns is an expression, and the cursor has moved. *)
Lemma walk_Ok : forall fuel,
  (forall tokens n rest,
     walk fuel tokens = Ok (n, rest) ->
     (length rest < length tokens)%nat /\ is_expr n) /\
  (forall acc tokens params rest,
     params_loop fuel acc tokens = Ok (params, rest) ->
     (length rest <= length tokens)%nat /\
     (Forall is_expr acc -> Forall is_expr params)).
Proof.
  induction fuel as [|fuel [IHw IHp]]; [split; intros; discriminate|].
  split.
  - intros tokens n rest H. cbn [walk] in H.
    destruct tokens as [|token tokens]; [discriminate|].
    destruct (type token).
    + destruct (bool_decide (value token = js "(")); [|discriminate].
      destruct tokens as [|callee tokens]; [discriminate|].
      destruct (params_loop fuel [] tokens) as [[ps r]| |] eqn:E;
        [|discriminate..].
      cbn [bind] in H. injection H as <- <-.
      apply IHp in E as [Hlen Hexpr]. split.
      * simpl. destruct r; simpl in *; lia.
      * apply is_expr_call, Hexpr. constructor.
    + injection H as <- <-. simpl. split; [lia|exact I].
    + injection H as <- <-. simpl. split; [lia|exact I].
    + discriminate.
  - intros acc tokens params rest H. cbn [params_loop] in H.
    destruct tokens as [|token tokens]; [discriminate|].
    destruct (closes token).
    + injection H as <- <-. split; [lia|auto].
    + destruct (walk fuel (token :: tokens)) as [[n r]| |] eqn:E;
        [|discriminate..].
      cbn [bind] in H. apply IHw in E as [Hlen Hn].
      apply IHp in H as [Hlen' Hexpr]. split; [lia|].
      intros Hacc. apply Hexpr, Forall_app. split; [assumption|].
      by constructor.
Qed.

Lemma walk_terminates : forall fuel,
  (forall tokens,
     (2 * length tokens <= fuel)%nat -> (1 <= fuel)%nat ->
     walk fuel tokens <> OutOfFuel) /\
  (forall acc tokens,
     (2 * length tokens + 1 <= fuel)%nat ->
     params_loop fuel acc tokens <> OutOfFuel).
Proof.
  induction fuel as [|fuel [IHw IHp]]; [split; intros; lia|].
  split.
  - intros tokens Hfuel _. cbn [walk].
    destruct tokens as [|token tokens]; [discriminate|].
    destruct (type token); try discriminate.
    destruct (bool_decide (value token = js "(")); [|discriminate].
    destruct tokens as [|callee tokens]; [discriminate|].
    simpl in Hfuel.
    destruct (params_loop fuel [] tokens) as [[ps r]| |] eqn:E;
      try discriminate.
    exfalso. eapply IHp; [|exact E]. lia.
  - intros acc tokens Hfuel. cbn [params_loop].
    destruct tokens as [|token tokens]; [discriminate|].
    destruct (closes token); [discriminate|].
    simpl in Hfuel.
    destruct (walk fuel (token :: tokens)) as [[n r]| |] eqn:E; cbn [bind].
    + apply (proj1 (walk_Ok fuel)) in E as [Hlen _]. simpl in Hlen.
      apply IHp. lia.
    + discriminate.
    + exfalso. eapply IHw; [| |exact E]; simpl; lia.
Qed.

Lemma parser_loop_terminates : forall fuel tokens body,
  (2 * length tokens + 1 <= fuel)%nat ->
  parser_loop fuel tokens body <> OutOfFuel.
Proof.
  induction fuel as [|fuel IH]; intros tokens body Hfuel; [lia|].
  destruct tokens as [|token tokens]; [discriminate|].
  cbn [parser_loop]. simpl in Hfuel.
  destruct (walk fuel (token :: tokens)) as [[n r]| |] eqn:E; cbn [bind].
  - apply (proj1 (walk_Ok fuel)) in E as [Hlen _]. simpl in Hlen.
    apply IH. lia.
  - discriminate.
  - exfalso. eapply (proj1 (walk_terminates fuel)); [| |exact E]; simpl; lia.
Qed.

(** The fuel of [parser] is enough for every token sequence. *)
Lemma parser_terminates tokens : parser tokens <> OutOfFuel.
Proof. apply parser_loop_terminates. lia. Qed.

Lemma parser_loop_Ok : forall fuel tokens body ast,
  parser_loop fuel tokens body = Ok ast ->
  Forall is_expr body ->
  exists body', ast = Program body' /\ Forall is_expr body'.
Proof.
  induction fuel as [|fuel IH]; intros tokens body ast H Hbody;
    (destruct tokens as [|token tokens];
      [injection H as <-; eauto|]); [discriminate|].
  cbn [parser_loop] in H.
  destruct (walk fuel (token :: tokens)) as [[n r]| |] eqn:E;
    [|discriminate..].
  cbn [bind] in H. apply (proj1 (walk_Ok fuel)) in E as [_ Hn].
  eapply IH; [exact H|]. apply Forall_app. split; [assumption|].
  by constructor.
Qed.

(** The parser returns a [Program] of expressions. *)
Lemma parser_Ok tokens ast :
  parser tokens = Ok ast ->
  exists body, ast = Program body /\ Forall is_expr body.
Proof. intros H. eapply parser_loop_Ok; [exact H|constructor]. Qed.

(** The outer loop, run over complete expressions. *)
Lemma parser_loop_tokens_of es : forall fuel body rest,
  Forall is_expr es ->
  (2 * length (flat_map tokens_of es) + 1 <= fuel)%nat ->
  parser_loop fuel (flat_map tokens_of es ++ rest) body
  = parser_loop (fuel - length es) rest (body ++ es).
Proof.
  induction es as [|e es IH]; intros fuel body rest Hes Hfuel.
  - simpl. rewrite Nat.sub_0_r, app_nil_r. reflexivity.
  - inversion Hes as [|? ? He Hes']; subst.
    simpl in *. rewrite length_app in Hfuel.
    destruct fuel as [|fuel]; [lia|].
    pose proof (walk_tokens_of e He fuel (flat_map tokens_of es ++ rest)
                  ltac:(lia)) as Hw.
    pose proof (tokens_of_length e He) as Hlen.
    destruct (tokens_of_head e He) as (t & ts & Hts & _).
    rewrite <- app_assoc.
    rewrite Hts in Hw, Hfuel, Hlen |- *. cbn [app] in Hw |- *.
    cbn [parser_loop]. rewrite Hw. cbn [bind].
    rewrite IH by (auto; lia). rewrite <- app_assoc. reflexivity.
Qed.

Lemma walk_call callee params fuel rest :
  Forall is_expr params ->
  (2 * length (flat_map tokens_of params) + 3 <= fuel)%nat ->
  walk fuel (open_paren :: callee :: flat_map tokens_of params
               ++ close_paren :: rest)
  = Ok (CallExpression (value callee) params, rest).
Proof.
  intros Hps Hfuel. destruct fuel as [|fuel]; [lia|].
  cbn [walk type value open_paren].
  rewrite bool_decide_eq_true_2 by reflexivity.
  rewrite params_loop_tokens_of by (auto; lia).
  pose proof (flat_map_tokens_length params Hps).
  destruct (fuel - length params)%nat as [|fuel'] eqn:E; [lia|].
  reflexivity.
Qed.

Lemma open_call_head p : open_call p -> exists ts, p = open_paren :: ts.
Proof. destruct 1; eauto. Qed.

(** [walk] started on a sequence that ends inside the call runs off the end
    of [tokens] and reads a property of [undefined]. *)
Lemma walk_open_call p :
  open_call p -> forall fuel,
  (2 * length p <= fuel)%nat -> walk fuel p = Throw HostTypeError.
Proof.
  induction 1 as [|callee params Hps|callee params inner Hps Hinner IH];
    intros fuel Hfuel.
  - destruct fuel as [|fuel]; [simpl in Hfuel; lia|]. reflexivity.
  - simpl in Hfuel. destruct fuel as [|fuel]; [lia|].
    cbn [walk type value open_paren].
    rewrite bool_decide_eq_true_2 by reflexivity.
    rewrite <- (app_nil_r (flat_map tokens_of params)).
    rewrite params_loop_tokens_of by (auto; lia).
    pose proof (flat_map_tokens_length params Hps).
    destruct (fuel - length params)%nat as [|fuel'] eqn:E; [lia|].
    reflexivity.
  - simpl in Hfuel. rewrite length_app in Hfuel.
    destruct fuel as [|fuel]; [lia|].
    cbn [walk type value open_paren].
    rewrite bool_decide_eq_true_2 by reflexivity.
    rewrite params_loop_tokens_of by (auto; lia).
    pose proof (flat_map_tokens_length params Hps).
    destruct (fuel - length params)%nat as [|fuel'] eqn:E; [lia|].
    destruct (open_call_head inner Hinner) as [ts Hts].
    rewrite Hts at 1. rewrite params_loop_step by reflexivity.
    rewrite <- Hts. rewrite IH by lia. reflexivity.
Qed.

End ParserFacts.

(** C4, as the code has it: the token after an opening parenthesis gives the
    call its name whatever its type is.  For every token [callee] and all
    expressions [params], the tokens of [( callee params... )] parse to the
    call named by the text of [callee]; there is no check for a name token
    and no error for a missing callee name. *)
Theorem parser_callee_of_any_type callee params :
  Forall is_expr params ->
  parser (open_paren :: callee :: flat_map tokens_of params ++ [close_paren])
  = Ok (Program [CallExpression (value callee) params]).
Proof.
  intros Hps. unfold parser.
  cbn [length]. rewrite length_app. cbn [length].
  replace (2 * S (S (length (flat_map tokens_of params) + 1)) + 1)%nat
    with (S (2 * length (flat_map tokens_of params) + 6)) by lia.
  cbn [parser_loop].
  rewrite walk_call by (auto; lia).
  cbn [bind]. destruct (2 * _ + 6)%nat; reflexivity.
Qed.

Lemma parser_callee_of_any_type_witness :
  Forall is_expr [NumberLiteral (js "2")] /\
  parser (open_paren :: Token T_number (js "1")
            :: flat_map tokens_of [NumberLiteral (js "2")] ++ [close_paren])
  = Ok (Program [CallExpression (js "1") [NumberLiteral (js "2")]]).
Proof.
  split.
  - repeat constructor.
  - apply (parser_callee_of_any_type (Token T_number (js "1"))
             [NumberLiteral (js "2")]).
    repeat constructor.
Defined.

(** C4 fails as stated: in the tokens of [(1 2)] the token after the
    parenthesis is a number, and [parser] returns a call named [1]. *)
Lemma parser_accepts_number_as_callee :
  type (Token T_number (js "1")) <> T_name /\
  parser [open_paren; Token T_number (js "1"); Token T_number (js "2");
          close_paren]
  = Ok (Program [CallExpression (js "1") [NumberLiteral (js "2")]]).
Proof. split; [discriminate|reflexivity]. Qed.

(** C6, as the code has it: for every token sequence that ends inside a
    call, after any number of complete expressions, [parser] fails, and the
    failure is the host's error for reading a property of the [undefined]
    that lies past the end of [tokens]. *)
Theorem parser_open_call_fails done p :
  Forall is_expr done -> open_call p ->
  parser (flat_map tokens_of done ++ p) = Throw HostTypeError.
Proof.
  intros Hdone Hp. unfold parser. rewrite length_app.
  rewrite parser_loop_tokens_of by (auto; lia).
  pose proof (flat_map_tokens_length done Hdone).
  destruct (open_call_head p Hp) as [ts Hts].
  destruct (_ - length done)%nat as [|fuel] eqn:E; [lia|].
  rewrite Hts at 1. cbn [parser_loop]. rewrite <- Hts.
  rewrite walk_open_call by (auto; lia). reflexivity.
Qed.

Lemma parser_open_call_fails_witness :
  parser (flat_map tokens_of [NumberLiteral (js "7")]
            ++ open_paren :: Token T_name (js "add")
                 :: flat_map tokens_of [NumberLiteral (js "2")])
  = Throw HostTypeError.
Proof.
  apply (parser_open_call_fails [NumberLiteral (js "7")]).
  - repeat constructor.
  - apply (open_call_params (Token T_name (js "add"))
             [NumberLiteral (js "2")]).
    repeat constructor.
Defined.

(** C6 fails as stated: on the tokens of [(add 2] the error is not one the
    parser throws with a token type as its message, it is the host's. *)
Lemma parser_open_call_not_own_error :
  let tokens := [open_paren; Token T_name (js "add"); Token T_number (js "2")] in
  parser tokens = Throw HostTypeError /\
  ~ exists message, parser tokens = Throw (TypeError message).
Proof.
  split; [reflexivity|]. intros [message H]. discriminate H.
Qed.

(** ** The transformer *)

Section TransformerFacts.

Lemma visitor_Program : transformer_visitor (js "Program") = None.
Proof. reflexivity. Qed.

Lemma visitor_NumberLiteral :
  transformer_visitor (js "NumberLiteral")
  = Some (Methods (Some NumberLiteral_enter) None).
Proof. reflexivity. Qed.

Lemma visitor_StringLiteral :
  transformer_visitor (js "StringLiteral")
  = Some (Methods (Some StringLiteral_enter) None).
Proof. reflexivity. Qed.

Lemma visitor_CallExpression :
  transformer_visitor (js "CallExpression")
  = Some (Methods (Some CallExpression_enter) None).
Proof. reflexivity. Qed.

Lemma bind_Ok_r {A} (m : outcome A) : (let* x := m in Ok x) = m.
Proof. destruct m; reflexivity. Qed.

Lemma bind_Ok {A B} (m : outcome A) (k : A -> outcome B) a r :
  m = Ok a -> k a = r -> bind m k = r.
Proof. intros -> <-. reflexivity. Qed.

Lemma traverseNode_NumberLiteral value r parent s :
  traverseNode transformer_visitor (NumberLiteral value) r parent s
  = push parent (HNumberLiteral value) s.
Proof.
  cbn [traverseNode node_type]. rewrite visitor_NumberLiteral. cbn [call enter exit].
  change (NumberLiteral_enter (r, NumberLiteral value) parent s)
    with (push parent (HNumberLiteral value) s).
  destruct (push parent (HNumberLiteral value) s); reflexivity.
Qed.

Lemma traverseNode_StringLiteral value r parent s :
  traverseNode transformer_visitor (StringLiteral value) r parent s
  = push parent (HStringLiteral value) s.
Proof.
  cbn [traverseNode node_type]. rewrite visitor_StringLiteral. cbn [call enter exit].
  change (StringLiteral_enter (r, StringLiteral value) parent s)
    with (push parent (HStringLiteral value) s).
  destruct (push parent (HStringLiteral value) s); reflexivity.
Qed.

Lemma traverseNode_CallExpression name params r parent s :
  traverseNode transformer_visitor (CallExpression name params) r parent s
  = let* s1 := CallExpression_enter (r, CallExpression name params) parent s in
    traverseArray (traverseNode transformer_visitor) params
      (r, CallExpression name params) 0 s1.
Proof.
  cbn [traverseNode node_type]. rewrite visitor_CallExpression.
  cbn [call enter exit].
  destruct (CallExpression_enter _ parent s) as [s1| |]; cbn [bind];
    [|reflexivity..].
  apply bind_Ok_r.
Qed.

Lemma traverseNode_Program body r parent s :
  traverseNode transformer_visitor (Program body) r parent s
  = traverseArray (traverseNode transformer_visitor) body (r, Program body) 0 s.
Proof.
  cbn [traverseNode node_type]. rewrite visitor_Program. cbn [call bind].
  apply bind_Ok_r.
Qed.

Lemma push_Ok p x s l :
  contexts s !! p.1 = Some l ->
  push (Some p) x s
  = Ok (Store (alter (fun a => a ++ [x]) l (arrays s)) (contexts s)).
Proof. intros H. destruct p as [r n]. simpl in *. rewrite H. reflexivity. Qed.

Lemma reify_call fuel a name l hs ts :
  a !! l = Some hs -> mapM (reify fuel a) hs = Some ts ->
  reify (S fuel) a (HCallExpression (HIdentifier name) l)
  = Some (CallExpressionT (Identifier name) ts).
Proof. intros H1 H2. cbn. rewrite H1. cbn. rewrite H2. reflexivity. Qed.

Lemma reify_statement fuel a e t :
  reify fuel a e = Some t ->
  reify fuel a (HExpressionStatement e) = Some (ExpressionStatement t).
Proof.
  destruct fuel; [discriminate|]. intros H.
  change (ExpressionStatement <$> reify (S fuel) a e
          = Some (ExpressionStatement t)).
  rewrite H. reflexivity.
Qed.

Lemma reify_program fuel a l hs ts :
  a !! l = Some hs -> mapM (reify fuel a) hs = Some ts ->
  reify (S fuel) a (HProgram l) = Some (Program ts).
Proof. intros H1 H2. cbn. rewrite H1. cbn. rewrite H2. reflexivity. Qed.

Local Ltac split_spec := split; [|split; [|split; [|intros q Hq]]].

Lemma child_not_prefix (r : ref) i : ~ (r ++ [i]) `prefix_of` r.
Proof.
  intros H. apply prefix_length in H. rewrite length_app in H. simpl in H. lia.
Qed.

Lemma traverseArray_spec cs : Forall node_spec cs -> array_spec cs.
Proof.
  induction 1 as [|c cs Hc _ IH]; intros i p s l Hctx Hl.
  - exists s, [], []. split_spec.
    + reflexivity.
    + rewrite app_nil_r. symmetry. apply list_alter_id. intros a. apply app_nil_r.
    + intros pre post fuel _ _. reflexivity.
    + reflexivity.
  - cbn [traverseArray].
    destruct (Hc (p.1 ++ [i]) p s l Hctx Hl (child_not_prefix _ _))
      as (s1 & h & ext1 & Ht1 & Harr1 & Hrep1 & Hctx1).
    assert (Hlen1 : length (arrays s1) = length (arrays s) + length ext1).
    { rewrite Harr1, length_app, length_alter. reflexivity. }
    destruct (IH (S i) p s1 l) as (s' & hs & ext2 & Ht2 & Harr2 & Hrep2 & Hctx2).
    { rewrite Hctx1; [assumption|apply child_not_prefix]. }
    { lia. }
    exists s', (h :: hs), (ext1 ++ ext2). split_spec.
    + eapply bind_Ok; [exact Ht1|exact Ht2].
    + rewrite Harr2, Harr1.
      rewrite alter_app_l by (rewrite length_alter; lia).
      rewrite list_alter_alter_eq, <- app_assoc. f_equal.
      apply list_alter_ext; [|reflexivity].
      intros a _. simpl. rewrite <- app_assoc. reflexivity.
    + intros pre post fuel Hpre Hfuel. rewrite length_app in Hfuel.
      cbn [map]. rewrite mapM_Some. constructor.
      * rewrite <- app_assoc. apply Hrep1; [assumption|lia].
      * apply mapM_Some.
        replace (pre ++ (ext1 ++ ext2) ++ post)
          with ((pre ++ ext1) ++ ext2 ++ post)
          by (rewrite <- !app_assoc; reflexivity).
        apply Hrep2; [|lia]. rewrite length_app. lia.
    + rewrite Hctx2 by assumption. apply Hctx1, Hq.
Qed.

Lemma CallExpression_enter_Ok name params r p s l :
  contexts s !! p.1 = Some l -> l < length (arrays s) -> r <> p.1 ->
  CallExpression_enter (r, CallExpression name params) (Some p) s
  = Ok (Store
          (alter (fun a => a ++
                    [let call :=
                       HCallExpression (HIdentifier name) (length (arrays s)) in
                     if wraps p.2 then HExpressionStatement call else call])
             l (arrays s) ++ [[]])
          (<[r := length (arrays s)]> (contexts s))).
Proof.
  intros Hctx Hl Hr. destruct p as [pr pn]. simpl in Hctx, Hr.
  unfold CallExpression_enter. cbn [fst snd].
  rewrite (push_Ok (pr, pn) _ _ l)
    by (cbn [fst contexts]; rewrite lookup_insert_ne; auto).
  cbn [arrays contexts]. rewrite alter_app_l by assumption. reflexivity.
Qed.

Lemma traverseNode_spec e : is_expr e -> node_spec e.
Proof.
  induction e as [| name params IH | value | value | | |] using node_ind';
    try contradiction; intros He r p s l Hctx Hl Hr.
  - (* a call *)
    apply is_expr_call in He.
    assert (Hparams : array_spec params).
    { apply traverseArray_spec. rewrite Forall_forall in *. auto. }
    pose proof (CallExpression_enter_Ok name params r p s l Hctx Hl) as Henter.
    set (base := length (arrays s)).
    set (h := let call := HCallExpression (HIdentifier name) base in
              if wraps p.2 then HExpressionStatement call else call).
    set (x := alter (fun a => a ++ [h]) l (arrays s)).
    assert (Hx : length x = base) by apply length_alter.
    destruct (Hparams 0 (r, CallExpression name params)
                (Store (x ++ [[]]) (<[r := base]> (contexts s))) base)
      as (s' & hs & ext & Ht & Harr & Hrep & Hctx').
    { cbn [fst contexts]. apply lookup_insert_eq. }
    { cbn [arrays]. rewrite length_app. simpl. lia. }
    cbn [arrays contexts fst snd] in *.
    exists s', h, (hs :: ext). split_spec.
    + rewrite traverseNode_CallExpression.
      eapply bind_Ok; [|exact Ht]. apply Henter.
      intros ->. apply Hr. reflexivity.
    + rewrite Harr. replace base with (length x + 0) at 1 by lia.
      rewrite alter_app_r. cbn. rewrite <- app_assoc. reflexivity.
    + intros pre post fuel Hpre Hfuel. cbn [length] in Hfuel.
      destruct fuel as [|fuel]; [lia|].
      assert (Hargs : mapM (reify fuel (pre ++ (hs :: ext) ++ post)) hs
                      = Some (map (transform_expr false) params)).
      { replace (pre ++ (hs :: ext) ++ post)
          with ((pre ++ [hs]) ++ ext ++ post)
          by (rewrite <- !app_assoc; reflexivity).
        apply Hrep; [|lia]. rewrite length_app, length_app. simpl. lia. }
      assert (Hlook : (pre ++ (hs :: ext) ++ post) !! base = Some hs).
      { cbn [app]. apply list_lookup_middle. congruence. }
      subst h. cbn [transform_expr].
      destruct (wraps p.2); [apply reify_statement|];
        eapply reify_call; eassumption.
    + rewrite Hctx'.
      * apply lookup_insert_ne. intros ->. apply Hq. reflexivity.
      * intros j Hj. apply Hq. eapply prefix_app_l, Hj.
  - (* a number *)
    eexists _, (HNumberLiteral value), []. split_spec.
    + rewrite traverseNode_NumberLiteral. apply push_Ok, Hctx.
    + cbn [arrays]. rewrite app_nil_r. reflexivity.
    + intros pre post fuel _ Hfuel. destruct fuel; [simpl in Hfuel; lia|].
      reflexivity.
    + reflexivity.
  - (* a string *)
    eexists _, (HStringLiteral value), []. split_spec.
    + rewrite traverseNode_StringLiteral. apply push_Ok, Hctx.
    + cbn [arrays]. rewrite app_nil_r. reflexivity.
    + intros pre post fuel _ Hfuel. destruct fuel; [simpl in Hfuel; lia|].
      reflexivity.
    + reflexivity.
Qed.

(** The store the transformer builds reads back as the tree that
    [transform_expr] describes. *)
Lemma transformer_Program body :
  Forall is_expr body ->
  transformer (Program body) = Ok (Program (map (transform_expr true) body)).
Proof.
  intros Hbody.
  assert (Hspec : array_spec body).
  { apply traverseArray_spec. eapply Forall_impl; [exact Hbody|].
    intros e. apply traverseNode_spec. }
  destruct (Hspec 0 ([], Program body) (Store [[]] {[ [] := 0 ]}) 0)
    as (s' & hs & ext & Ht & Harr & Hrep & _).
  { apply lookup_singleton_eq. }
  { simpl. lia. }
  unfold transformer, traverser. rewrite traverseNode_Program.
  eapply bind_Ok; [exact Ht|].
  cbn in Harr. rewrite Harr.
  erewrite reify_program; [reflexivity|reflexivity|].
  specialize (Hrep [hs] [] (length (hs :: ext))).
  rewrite app_nil_r in Hrep. apply Hrep; [reflexivity|simpl; lia].
Qed.

Lemma transform_expr_statement_free e :
  is_expr e -> statement_free (transform_expr false e).
Proof.
  induction e as [| name params IH | | | | |] using node_ind';
    try contradiction; intros He; [|exact I..].
  apply is_expr_call in He. cbn.
  apply Is_true_true, forallb_forall. intros t Ht.
  apply in_map_iff in Ht as (e & <- & He').
  apply list_elem_of_In in He'.
  rewrite Forall_forall in IH, He. apply Is_true_true. auto.
Qed.

Lemma transform_expr_wrapped_once e :
  is_expr e -> wrapped_once e (transform_expr true e).
Proof.
  destruct e; try contradiction; intros He; [|exact I..].
  apply is_expr_call in He. eexists. split; [reflexivity|].
  apply Forall_map. eapply Forall_impl; [exact He|].
  intros e. apply transform_expr_statement_free.
Qed.

End TransformerFacts.

(** ** The code generator *)

Section CodeGeneratorFacts.

Lemma map_outcome_Ok {A B} (f : A -> outcome B) l :
  Forall (fun x => exists y, f x = Ok y) l ->
  exists ys, map_outcome f l = Ok ys.
Proof.
  induction 1 as [|x l [y Hy] _ [ys IH]]; [by exists []|].
  exists (y :: ys). simpl. rewrite Hy, IH. reflexivity.
Qed.

(** The code generator returns on the target tree of every expression. *)
Lemma codeGenerator_transform_expr e :
  is_expr e -> forall wrap,
  exists output, codeGenerator (transform_expr wrap e) = Ok output.
Proof.
  induction e as [| name params IH | | | | |] using node_ind';
    try contradiction; intros He wrap; [|simpl; eauto..].
  apply is_expr_call in He.
  destruct (map_outcome_Ok codeGenerator (map (transform_expr false) params))
    as [args Hargs].
  { apply Forall_map. rewrite Forall_forall in *. intros e Hin.
    apply IH; auto. }
  destruct wrap; cbn [transform_expr codeGenerator bind]; rewrite Hargs;
    cbn [bind]; eauto.
Qed.

Lemma codeGenerator_Program body :
  Forall is_expr body ->
  exists output,
    codeGenerator (Program (map (transform_expr true) body)) = Ok output.
Proof.
  intros Hbody.
  destruct (map_outcome_Ok codeGenerator (map (transform_expr true) body))
    as [lines Hlines].
  { apply Forall_map. eapply Forall_impl; [exact Hbody|].
    intros e He. by apply codeGenerator_transform_expr. }
  cbn [codeGenerator]. rewrite Hlines. cbn [bind]. eauto.
Qed.

End CodeGeneratorFacts.

(** ** The compiler *)

(** C8, as the code has it: whitespace put in at a place between tokens
    changes nothing, whatever the compiler does with the input: returning,
    throwing or running for ever.  Read from right to left, whitespace can
    be taken out when the place it leaves is still between tokens of the
    shorter input. *)
Theorem whitespace_at_token_boundary a w b :
  token_boundary a b ->
  Forall (fun c => is_whitespace c = true) w ->
  compiler (a ++ w ++ b) = compiler (a ++ b).
Proof.
  intros [tokens Hscans] Hw.
  assert (Htok : tokenizer (a ++ w ++ b) = tokenizer (a ++ b)).
  { unfold tokenizer.
    rewrite (scans_tokenizer_loop _ _ _ _ Hscans).
    apply scans_tokenizer_loop.
    eapply scans_trans; [|by apply scans_whitespace].
    by eapply scans_insert. }
  unfold compiler. rewrite Htok. reflexivity.
Qed.

Lemma whitespace_at_token_boundary_witness :
  compiler (js "(add 2 " ++ js "  " ++ js "2)")
  = compiler (js "(add 2 " ++ js "2)").
Proof.
  apply (whitespace_at_token_boundary (js "(add 2 ") (js "  ") (js "2)")).
  - exists [open_paren; Token T_name (js "add"); Token T_number (js "2")].
    vm_compute.
    do 5 (eapply scans_step; [vm_compute; reflexivity|]).
    apply scans_here.
  - repeat constructor.
Defined.

(** C8 fails as stated: in [(add 2 2)] the space between the two numbers is
    whitespace between two tokens, and without it the compiler returns
    another string. *)
Lemma whitespace_between_numbers_separates :
  Forall (fun c => is_whitespace c = true) (js " ") /\
  tokenizer (js "(add 2" ++ js " " ++ js "2)")
  = Ok [open_paren; Token T_name (js "add"); Token T_number (js "2");
        Token T_number (js "2"); close_paren] /\
  compiler (js "(add 2" ++ js " " ++ js "2)") = Ok (js "add(2, 2);") /\
  compiler (js "(add 2" ++ js "2)") = Ok (js "add(22);") /\
  compiler (js "(add 2" ++ js " " ++ js "2)") <> compiler (js "(add 2" ++ js "2)").
Proof.
  split; [repeat constructor|].
  split; [vm_compute; reflexivity|].
  split; [vm_compute; reflexivity|].
  split; [vm_compute; reflexivity|].
  vm_compute. discriminate.
Qed.

Lemma compiler_newAst_of input :
  compiler input = let* newAst := newAst_of input in codeGenerator newAst.
Proof.
  unfold compiler, newAst_of.
  destruct (tokenizer input) as [tokens| |]; [|reflexivity..]. cbn [bind].
  destruct (parser tokens) as [ast| |]; reflexivity.
Qed.

(** C1: the nested call [(add 2 (subtract 4 2))] compiles to
    [add(2, subtract(4, 2));]. *)
Theorem compiler_nested_call :
  compiler (js "(add 2 (subtract 4 2))") = Ok (js "add(2, subtract(4, 2));").
Proof. vm_compute. reflexivity. Qed.

(** C2: for every input that the tokenizer and the parser accept, the
    transformer returns a tree and the code generator returns a string for
    it, which is what the compiler returns: no branch of the traverser or of
    the code generator that throws is taken. *)
Theorem transformer_codeGenerator_succeed input tokens ast :
  tokenizer input = Ok tokens ->
  parser tokens = Ok ast ->
  exists newAst output,
    transformer ast = Ok newAst /\ codeGenerator newAst = Ok output /\
    compiler input = Ok output.
Proof.
  intros Htokens Hparse.
  destruct (parser_Ok _ _ Hparse) as (body & -> & Hbody).
  destruct (codeGenerator_Program body Hbody) as [output Hout].
  pose proof (transformer_Program body Hbody) as Htransform.
  exists (Program (map (transform_expr true) body)), output.
  split; [assumption|]. split; [assumption|].
  unfold compiler. rewrite Htokens. cbn [bind].
  rewrite Hparse. cbn [bind]. rewrite Htransform. exact Hout.
Qed.

Lemma transformer_codeGenerator_succeed_witness :
  exists newAst output,
    transformer
      (Program [CallExpression (js "add")
                  [NumberLiteral (js "2"); NumberLiteral (js "2")]])
    = Ok newAst /\
    codeGenerator newAst = Ok output /\
    compiler (js "(add 2 2)") = Ok output.
Proof.
  apply (transformer_codeGenerator_succeed (js "(add 2 2)")
           [open_paren; Token T_name (js "add"); Token T_number (js "2");
            Token T_number (js "2"); close_paren]).
  - vm_compute. reflexivity.
  - vm_compute. reflexivity.
Defined.

(** C3: in the target tree of every program the parser returns, each element
    of [body] that comes from a top-level call is one [ExpressionStatement]
    around the call, and there is no [ExpressionStatement] inside it: the
    calls in argument position are not wrapped. *)
Theorem top_level_calls_wrapped_once tokens ast :
  parser tokens = Ok ast ->
  exists body body',
    ast = Program body /\
    transformer ast = Ok (Program body') /\
    Forall2 wrapped_once body body'.
Proof.
  intros Hparse.
  apply parser_Ok in Hparse as (body & -> & Hbody).
  exists body, (map (transform_expr true) body).
  split; [reflexivity|]. split; [by apply transformer_Program|].
  induction Hbody as [|e body He _ IH]; constructor; [|exact IH].
  by apply transform_expr_wrapped_once.
Qed.

Lemma top_level_calls_wrapped_once_witness :
  exists body body',
    Program [CallExpression (js "add")
               [NumberLiteral (js "2");
                CallExpression (js "subtract")
                  [NumberLiteral (js "4"); NumberLiteral (js "2")]]]
    = Program body /\
    transformer
      (Program [CallExpression (js "add")
                  [NumberLiteral (js "2");
                   CallExpression (js "subtract")
                     [NumberLiteral (js "4"); NumberLiteral (js "2")]]])
    = Ok (Program body') /\
    Forall2 wrapped_once body body'.
Proof.
  apply (top_level_calls_wrapped_once
           [open_paren; Token T_name (js "add"); Token T_number (js "2");
            open_paren; Token T_name (js "subtract"); Token T_number (js "4");
            Token T_number (js "2"); close_paren; close_paren]).
  vm_compute. reflexivity.
Defined.

(** C9: the parser returns a [Program] with an empty [body] for no tokens,
    and the compiler returns the empty string for the empty input. *)
Theorem compiler_empty_input :
  parser [] = Ok (Program []) /\ compiler (js "") = Ok (js "").
Proof. split; vm_compute; reflexivity. Qed.

(** The scenarios of the specification. *)
Example compiler_add :
  compiler (js "(add 2 2)") = Ok (js "add(2, 2);").
Proof. vm_compute. reflexivity. Qed.

Example compiler_subtract :
  compiler (js "(subtract 4 2)") = Ok (js "subtract(4, 2);").
Proof. vm_compute. reflexivity. Qed.

Example compiler_concat :
  compiler (js "(concat " ++ [quote] ++ js "foo" ++ [quote] ++ js " "
              ++ [quote] ++ js "bar" ++ [quote] ++ js ")")
  = Ok (js "concat(" ++ [quote] ++ js "foo" ++ [quote] ++ js ", "
          ++ [quote] ++ js "bar" ++ [quote] ++ js ");").
Proof. vm_compute. reflexivity. Qed.

Example compiler_two_statements :
  compiler (js "(add 2 2)" ++ [10%N] ++ js "(subtract 4 2)")
  = Ok (js "add(2, 2);" ++ [10%N] ++ js "subtract(4, 2);").
Proof. vm_compute. reflexivity. Qed.

Example tokenizer_unknown_character :
  tokenizer (js "@")
  = Throw (TypeError (js "I dont know what this character is: @")).
Proof. vm_compute. reflexivity. Qed.

(** C10: a number alone and a string literal alone compile.  The target
    [body] holds the literal itself, with no [ExpressionStatement] around it,
    and the output is the text of the literal, which is the input, with no
    semicolon after it. *)
Theorem bare_literal_compiles value :
  (value <> [] -> Forall (fun c => is_digit c = true) value ->
   newAst_of value = Ok (Program [NumberLiteral value]) /\
   compiler value = Ok value) /\
  (quote ∉ value ->
   newAst_of ([quote] ++ value ++ [quote]) = Ok (Program [StringLiteral value])
   /\ compiler ([quote] ++ value ++ [quote]) = Ok ([quote] ++ value ++ [quote])).
Proof.
  split.
  - intros Hne Hall.
    assert (H : newAst_of value = Ok (Program [NumberLiteral value])).
    { unfold newAst_of. rewrite tokenizer_number by assumption. cbn [bind].
      change (parser [Token T_number value])
        with (Ok (Program [NumberLiteral value])).
      cbn [bind]. apply (transformer_Program [NumberLiteral value]).
      repeat constructor. }
    split; [exact H|]. rewrite compiler_newAst_of, H. reflexivity.
  - intros Hq.
    assert (H : newAst_of ([quote] ++ value ++ [quote])
                = Ok (Program [StringLiteral value])).
    { unfold newAst_of. rewrite tokenizer_string by assumption. cbn [bind].
      change (parser [Token T_string value])
        with (Ok (Program [StringLiteral value])).
      cbn [bind]. apply (transformer_Program [StringLiteral value]).
      repeat constructor. }
    split; [exact H|]. rewrite compiler_newAst_of, H. reflexivity.
Qed.

Lemma bare_literal_compiles_witness :
  compiler (js "5") = Ok (js "5") /\
  compiler ([quote] ++ js "5" ++ [quote]) = Ok ([quote] ++ js "5" ++ [quote]).
Proof.
  destruct (bare_literal_compiles (js "5")) as [Hnumber Hstring].
  split.
  - apply Hnumber; [discriminate|]. repeat constructor.
  - apply Hstring. rewrite list_elem_of_In. simpl. intros [H|[]].
    discriminate H.
Defined.

(** * Further properties *)

(** ** The tokenizer: how a run ends *)

Section TokenizerRuns.
Local Open Scope N_scope.

Lemma tokenizer_step_Throw fuel c rest' tokens e :
  tokenizer_step fuel c rest' tokens = Throw e ->
  unknown_character c = true /\
  e = TypeError (js "I dont know what this character is: " ++ [c]).
Proof.
  unfold tokenizer_step, WHITESPACE, NUMBERS, LETTERS.
  rewrite !test_Some. intros H.
  destruct (c =? 40) eqn:H40; [discriminate|].
  destruct (c =? 41) eqn:H41; [discriminate|].
  destruct (is_whitespace c) eqn:Hws; [discriminate|].
  destruct (is_digit c) eqn:Hd.
  { destruct (scan_while _ fuel [] (c :: rest')) as [[v r]|e'|] eqn:Hs;
      try discriminate.
    exfalso. eapply scan_while_no_throw, Hs. }
  destruct (c =? quote) eqn:Hq.
  { destruct (scan_while not_quote fuel [] rest') as [[v r]|e'|] eqn:Hs;
      try discriminate.
    exfalso. eapply scan_while_no_throw, Hs. }
  destruct (is_letter c) eqn:Hl.
  { destruct (scan_while _ fuel [] (c :: rest')) as [[v r]|e'|] eqn:Hs;
      try discriminate.
    exfalso. eapply scan_while_no_throw, Hs. }
  injection H as <-. split; [|reflexivity].
  unfold unknown_character. rewrite H40, H41, Hws, Hd, Hq, Hl. reflexivity.
Qed.

Lemma unknown_character_step fuel c rest' tokens :
  unknown_character c = true ->
  tokenizer_step fuel c rest' tokens
  = Throw (TypeError (js "I dont know what this character is: " ++ [c])).
Proof.
  unfold unknown_character. intros H.
  repeat (apply andb_true_iff in H as [H ?]).
  repeat match goal with
  | H : negb _ = true |- _ => apply negb_true_iff in H
  end.
  unfold tokenizer_step, WHITESPACE, NUMBERS, LETTERS.
  rewrite !test_Some.
  repeat match goal with H : _ = false |- _ => rewrite H; clear H end.
  reflexivity.
Qed.

(** A loop that is out of fuel though it had enough for the whole input has
    run past the end. *)
Lemma scan_while_OutOfFuel cond rest : forall fuel value,
  scan_while cond fuel value rest = OutOfFuel ->
  (length rest <= fuel)%nat ->
  cond None = true /\ Forall (fun c => cond (Some c) = true) rest.
Proof.
  induction rest as [|c rest IH]; intros fuel value H Hfuel.
  - split; [|constructor].
    destruct (cond None) eqn:Hc; [reflexivity|].
    destruct fuel; simpl in H; rewrite Hc in H; discriminate.
  - destruct fuel as [|fuel]; [simpl in Hfuel; lia|].
    simpl in H, Hfuel. destruct (cond (Some c)) eqn:Hc; [|discriminate].
    apply IH in H as [Hend Hall]; [|lia]. by repeat constructor.
Qed.

Lemma tokenizer_step_OutOfFuel fuel c rest' tokens :
  tokenizer_step fuel c rest' tokens = OutOfFuel ->
  (S (length rest') <= fuel)%nat ->
  stuck (c :: rest').
Proof.
  unfold tokenizer_step, WHITESPACE, NUMBERS, LETTERS.
  rewrite !test_Some. intros H Hfuel.
  destruct (c =? 40) eqn:H40; [discriminate|].
  destruct (c =? 41) eqn:H41; [discriminate|].
  destruct (is_whitespace c) eqn:Hws; [discriminate|].
  destruct (is_digit c) eqn:Hd.
  { destruct (scan_while _ fuel [] (c :: rest')) as [[v r]|e'|] eqn:Hs;
      try discriminate.
    apply scan_while_OutOfFuel in Hs as [Hend _]; [|simpl; lia].
    discriminate Hend. }
  destruct (c =? quote) eqn:Hq.
  { destruct (scan_while not_quote fuel [] rest') as [[v r]|e'|] eqn:Hs;
      try discriminate.
    apply scan_while_OutOfFuel in Hs as [_ Hall]; [|lia].
    apply N.eqb_eq in Hq as ->. right. exists rest'. split; [reflexivity|].
    intros Hin. rewrite Forall_forall in Hall. apply Hall in Hin.
    discriminate Hin. }
  destruct (is_letter c) eqn:Hl; [|discriminate].
  destruct (scan_while _ fuel [] (c :: rest')) as [[v r]|e'|] eqn:Hs;
    try discriminate.
  apply scan_while_OutOfFuel in Hs as [_ Hall]; [|simpl; lia].
  left. split; [discriminate|].
  rewrite Forall_forall in Hall |- *. intros x Hx.
  specialize (Hall x Hx). by rewrite test_Some in Hall.
Qed.

Lemma tokenizer_loop_stuck fuel rest tokens :
  stuck rest -> tokenizer_loop fuel rest tokens = OutOfFuel.
Proof.
  intros [[Hne Hall]|(text & -> & Hq)].
  - by apply tokenizer_loop_name_at_end.
  - by apply tokenizer_loop_open_string.
Qed.

Lemma halts_loop tokens rest r :
  halts tokens rest r ->
  tokenizer_loop (S (length rest)) rest tokens = r.
Proof.
  destruct 1 as [|c rest Hc|rest Hs].
  - reflexivity.
  - rewrite tokenizer_loop_cons, unknown_character_step by assumption.
    reflexivity.
  - by apply tokenizer_loop_stuck.
Qed.

(** Every run of the tokenizer is a number of turns of the outer loop up to
    a cursor where it ends in one of the three ways. *)
Lemma tokenizer_run : forall n rest tokens,
  (length rest <= n)%nat ->
  exists rest' tokens' r,
    scans rest tokens rest' tokens' /\ halts tokens' rest' r /\
    tokenizer_loop (S (length rest)) rest tokens = r.
Proof.
  induction n as [|n IH]; intros rest tokens Hn.
  - destruct rest; [|simpl in Hn; lia].
    exists [], tokens, (Ok tokens). repeat split; constructor.
  - destruct rest as [|c rest'].
    { exists [], tokens, (Ok tokens). repeat split; constructor. }
    simpl in Hn.
    destruct (tokenizer_step (S (length rest')) c rest' tokens)
      as [[r1 t1]|e|] eqn:Hstep.
    + pose proof (tokenizer_step_shorter _ _ _ _ _ _ Hstep) as Hlen.
      destruct (IH r1 t1 ltac:(lia)) as (rest2 & tokens2 & r & Hsc & Hh & Hr).
      exists rest2, tokens2, r. split; [eapply scans_step; eassumption|].
      split; [assumption|].
      cbn [length]. rewrite tokenizer_loop_cons, Hstep. cbn [bind].
      rewrite (tokenizer_loop_fuel (length r1)) by lia. exact Hr.
    + apply tokenizer_step_Throw in Hstep as Hthrow.
      destruct Hthrow as [Hc ->].
      eexists (c :: rest'), tokens, _. split; [constructor|].
      split; [by constructor|].
      cbn [length]. rewrite tokenizer_loop_cons, Hstep. reflexivity.
    + apply tokenizer_step_OutOfFuel in Hstep as Hstuck; [|lia].
      eexists (c :: rest'), tokens, _. split; [constructor|].
      split; [by apply halts_stuck|].
      cbn [length]. rewrite tokenizer_loop_cons, Hstep. reflexivity.
Qed.

Lemma stuck_not_nil : ~ stuck [].
Proof. intros [[H _]|(text & H & _)]; [by apply H|discriminate]. Qed.

Lemma stuck_not_unknown c rest :
  unknown_character c = true -> ~ stuck (c :: rest).
Proof.
  unfold unknown_character. intros H.
  repeat (apply andb_true_iff in H as [H ?]).
  repeat match goal with
  | H : negb _ = true |- _ => apply negb_true_iff in H
  end.
  intros [[_ Hall]|(text & Heq & _)].
  - inversion Hall; subst. congruence.
  - injection Heq as -> _. discriminate.
Qed.

End TokenizerRuns.

(** The tokenizer throws, with the errors of [exn], exactly at a code unit
    it does not know. *)
Lemma tokenizer_Throw_iff input e :
  tokenizer input = Throw e <->
  exists a c b,
    input = a ++ c :: b /\ token_boundary a (c :: b) /\
    unknown_character c = true /\
    e = TypeError (js "I dont know what this character is: " ++ [c]).
Proof.
  unfold tokenizer. split.
  - intros H.
    destruct (tokenizer_run (length input) input [] ltac:(lia))
      as (rest & tokens & r & Hsc & Hh & Hr).
    rewrite H in Hr. subst r.
    destruct (scans_suffix _ _ _ _ Hsc) as [a ->].
    inversion Hh as [|c b Hc|]; subst.
    exists a, c, b. repeat split; auto. by exists tokens.
  - intros (a & c & b & -> & [tokens Hsc] & Hc & ->).
    rewrite (scans_tokenizer_loop _ _ _ _ Hsc).
    apply halts_loop. by constructor.
Qed.

(** The loops of the tokenizer run away exactly in front of a name that
    runs to the end or of a string literal that is not closed. *)
Lemma tokenizer_OutOfFuel_iff input :
  tokenizer input = OutOfFuel <->
  exists a b, input = a ++ b /\ token_boundary a b /\ stuck b.
Proof.
  unfold tokenizer. split.
  - intros H.
    destruct (tokenizer_run (length input) input [] ltac:(lia))
      as (rest & tokens & r & Hsc & Hh & Hr).
    rewrite H in Hr. subst r.
    destruct (scans_suffix _ _ _ _ Hsc) as [a ->].
    inversion Hh; subst.
    exists a, rest. repeat split; auto. by exists tokens.
  - intros (a & b & -> & [tokens Hsc] & Hstuck).
    rewrite (scans_tokenizer_loop _ _ _ _ Hsc).
    by apply tokenizer_loop_stuck.
Qed.

(** X1: the tokenizer throws a [TypeError] exactly when, at a place between
    tokens, it meets a code unit that is no parenthesis, whitespace, digit,
    double quote or letter; the message of the error ends in that code
    unit, and the error is never the host's for a property of [undefined].
    (A loop that runs away is no [TypeError]: it is [OutOfFuel] here, and
    an engine ends it with its RangeError for a string that is too
    long.) *)
Theorem tokenizer_throws_iff input message :
  (tokenizer input = Throw (TypeError message) <->
   exists a c b,
     input = a ++ c :: b /\ token_boundary a (c :: b) /\
     unknown_character c = true /\
     message = js "I dont know what this character is: " ++ [c]) /\
  tokenizer input <> Throw HostTypeError.
Proof.
  split; [split|].
  - intros H. apply tokenizer_Throw_iff in H
      as (a & c & b & Hin & Hb & Hc & He).
    injection He as ->. by exists a, c, b.
  - intros (a & c & b & Hin & Hb & Hc & ->).
    apply tokenizer_Throw_iff. by exists a, c, b.
  - intros H. apply tokenizer_Throw_iff in H as (a & c & b & _ & _ & _ & He).
    discriminate He.
Qed.

(** X2: the tokenizer returns no tokens and throws no [TypeError] exactly
    when, at a place between tokens, what is left of the input is a name
    that runs to the end or a string literal without its closing quote:
    then the loop of the name or of the string runs past the end of the
    input and appends to [value] without end (until an engine stops it
    with its RangeError for a string that is too long). *)
Theorem tokenizer_never_returns_iff input :
  ((forall tokens, tokenizer input <> Ok tokens) /\
   (forall e, tokenizer input <> Throw e)) <->
  exists a b, input = a ++ b /\ token_boundary a b /\ stuck b.
Proof.
  rewrite <- tokenizer_OutOfFuel_iff. split.
  - intros [Hok Hthrow]. destruct (tokenizer input) as [tokens|e|].
    + by destruct (Hok tokens).
    + by destruct (Hthrow e).
    + reflexivity.
  - intros ->. split; intros; discriminate.
Qed.

(** ** The tokenizer: tokens and their text *)

Section TokenizerText.
Local Open Scope N_scope.

(** A turn of the outer loop skips one whitespace character or reads the
    text of one token. *)
Lemma tokenizer_step_emits fuel c rest' tokens y tokens1 :
  tokenizer_step fuel c rest' tokens = Ok (y, tokens1) ->
  exists x',
    rest' = x' ++ y /\
    ((is_whitespace c = true /\ x' = [] /\ tokens1 = tokens) \/
     (exists t, tokens1 = tokens ++ [t] /\ well_formed t /\
                lexeme t = c :: x')).
Proof.
  unfold tokenizer_step, WHITESPACE, NUMBERS, LETTERS.
  rewrite !test_Some. intros H.
  assert (Hscan : forall class value,
    class c = true ->
    scan_while (test class) fuel [] (c :: rest') = Ok (value, y) ->
    exists x', rest' = x' ++ y /\ value = c :: x' /\
               Forall (fun c => class c = true) value).
  { intros class value Hc Hs.
    apply scan_while_Ok in Hs as (r1 & Heq & -> & Hall & Hstop & _).
    destruct r1 as [|c' r1]; simpl in Heq.
    - subst y. simpl in Hstop. rewrite test_Some in Hstop. congruence.
    - injection Heq as <- ->. exists r1. repeat split.
      rewrite Forall_forall in Hall |- *. intros x Hx.
      specialize (Hall x Hx). by rewrite test_Some in Hall. }
  destruct (c =? 40) eqn:H40.
  { injection H as <- <-. apply N.eqb_eq in H40 as ->.
    exists []. split; [reflexivity|]. right.
    exists (Token T_paren (js "(")). repeat split. by left. }
  destruct (c =? 41) eqn:H41.
  { injection H as <- <-. apply N.eqb_eq in H41 as ->.
    exists []. split; [reflexivity|]. right.
    exists (Token T_paren (js ")")). repeat split. by right. }
  destruct (is_whitespace c) eqn:Hws.
  { injection H as <- <-. exists []. split; [reflexivity|]. by left. }
  destruct (is_digit c) eqn:Hd.
  { destruct (scan_while _ fuel [] (c :: rest')) as [[v r]| |] eqn:Hs;
      try discriminate.
    injection H as <- <-.
    destruct (Hscan is_digit v Hd Hs) as (x' & -> & -> & Hall).
    exists x'. split; [reflexivity|]. right.
    exists (Token T_number (c :: x')). repeat split; [discriminate|exact Hall]. }
  destruct (c =? quote) eqn:Hq.
  { destruct (scan_while not_quote fuel [] rest') as [[v r]| |] eqn:Hs;
      try discriminate.
    injection H as <- <-.
    apply scan_while_Ok in Hs as (r1 & -> & -> & Hall & Hstop & _).
    destruct r as [|c' r]; [discriminate|]. simpl in Hstop.
    apply negb_false_iff, N.eqb_eq in Hstop as ->.
    apply N.eqb_eq in Hq as ->.
    exists (r1 ++ [quote]). split; [by rewrite <- app_assoc|]. right.
    exists (Token T_string r1). repeat split.
    intros Hin. rewrite Forall_forall in Hall. apply Hall in Hin.
    discriminate Hin. }
  destruct (is_letter c) eqn:Hl; [|discriminate].
  destruct (scan_while _ fuel [] (c :: rest')) as [[v r]| |] eqn:Hs;
    try discriminate.
  injection H as <- <-.
  destruct (Hscan is_letter v Hl Hs) as (x' & -> & -> & Hall).
  exists x'. split; [reflexivity|]. right.
  exists (Token T_name (c :: x')). repeat split; [discriminate|exact Hall].
Qed.

Lemma spaced_whitespace c tokens rest :
  is_whitespace c = true -> spaced tokens rest -> spaced tokens (c :: rest).
Proof.
  intros Hc [w Hw|w t ts r Hw Hts].
  - constructor. by constructor.
  - apply (spaced_token (c :: w)); [by constructor|assumption].
Qed.

Lemma scans_spaced rest tokens rest' tokens' :
  scans rest tokens rest' tokens' -> rest' = [] ->
  exists new,
    tokens' = tokens ++ new /\ spaced new rest /\ Forall well_formed new.
Proof.
  induction 1 as [rest tokens|c rest' tokens r1 t1 r2 t2 Hstep _ IH];
    intros Hend.
  - subst rest. exists []. rewrite app_nil_r.
    repeat split; repeat constructor.
  - destruct (IH Hend) as (new & -> & Hsp & Hwf).
    apply tokenizer_step_emits in Hstep
      as (x' & -> & [(Hws & -> & ->)|(t & -> & Ht & Hlex)]).
    + exists new. repeat split; [|assumption]. by apply spaced_whitespace.
    + exists (t :: new). rewrite <- app_assoc. repeat split.
      * change (c :: x' ++ r1) with ((c :: x') ++ r1). rewrite <- Hlex.
        apply (spaced_token []); [constructor|assumption].
      * by constructor.
Qed.

Lemma well_formed_lexeme_length t :
  well_formed t -> (1 <= length (lexeme t))%nat.
Proof.
  destruct t as [[] v]; unfold well_formed, lexeme; cbn [type value].
  - intros [->| ->]; simpl; lia.
  - intros [Hne _]. destruct v; [congruence|simpl; lia].
  - intros _. simpl. lia.
  - intros [Hne _]. destruct v; [congruence|simpl; lia].
Qed.

Lemma spaced_length tokens input :
  spaced tokens input -> Forall well_formed tokens ->
  (length tokens <= length input)%nat.
Proof.
  induction 1 as [w Hw|w t ts r Hw _ IH]; intros Hwf; [simpl; lia|].
  inversion Hwf as [|? ? Ht Hts]; subst.
  pose proof (well_formed_lexeme_length t Ht).
  rewrite !length_app. simpl. specialize (IH Hts). lia.
Qed.

(** The turn of the outer loop that reads the text of a well-formed token,
    in front of anything that neither a number nor a name runs into. *)
Lemma tokenizer_step_lexeme t rest tokens :
  well_formed t ->
  NUMBERS (head rest) = false -> LETTERS (head rest) = false ->
  exists c x',
    lexeme t = c :: x' /\
    forall fuel, (S (length x') <= fuel)%nat ->
    tokenizer_step fuel c (x' ++ rest) tokens = Ok (rest, tokens ++ [t]).
Proof.
  intros Ht Hn Hl.
  assert (Hclass : forall (class : code_unit -> bool) v,
    Forall (fun c => class c = true) v ->
    Forall (fun c => test class (Some c) = true) v).
  { intros class v Hv. rewrite Forall_forall in Hv |- *. intros x Hx.
    rewrite test_Some. auto. }
  destruct t as [[] v]; unfold well_formed, lexeme in *; cbn [type value] in *.
  - destruct Ht as [->| ->]; [exists 40, []|exists 41, []];
      (split; [reflexivity|]); intros fuel _; reflexivity.
  - destruct Ht as [Hne Hall]. destruct v as [|c v]; [congruence|].
    exists c, v. split; [reflexivity|]. intros fuel Hfuel.
    rewrite tokenizer_step_digit by (by inversion Hall).
    change (c :: v ++ rest) with ((c :: v) ++ rest).
    rewrite (scan_while_run NUMBERS (c :: v) rest fuel []);
      [reflexivity|by apply Hclass|assumption|simpl; lia].
  - exists quote, (v ++ [quote]). split; [reflexivity|].
    intros fuel Hfuel. rewrite length_app in Hfuel. simpl in Hfuel.
    rewrite tokenizer_step_quote, <- app_assoc. cbn [app].
    rewrite scan_while_run; [reflexivity| |reflexivity|lia].
    apply Forall_forall. intros c Hc. simpl.
    apply negb_true_iff, N.eqb_neq. intros ->. contradiction.
  - destruct Ht as [Hne Hall]. destruct v as [|c v]; [congruence|].
    exists c, v. split; [reflexivity|]. intros fuel Hfuel.
    rewrite tokenizer_step_letter by (by inversion Hall).
    change (c :: v ++ rest) with ((c :: v) ++ rest).
    rewrite (scan_while_run LETTERS (c :: v) rest fuel []);
      [reflexivity|by apply Hclass|assumption|simpl; lia].
Qed.

Lemma scans_text_of_tokens tokens : forall tokens0,
  Forall well_formed tokens ->
  scans (text_of_tokens tokens) tokens0 [] (tokens0 ++ tokens).
Proof.
  induction tokens as [|t tokens IH]; intros tokens0 Hwf.
  - rewrite app_nil_r. constructor.
  - inversion Hwf as [|? ? Ht Hts]; subst.
    destruct (tokenizer_step_lexeme t (32 :: text_of_tokens tokens) tokens0 Ht)
      as (c & x' & Hlex & Hstep); [reflexivity..|].
    unfold text_of_tokens. cbn [flat_map]. rewrite Hlex, <- app_assoc.
    cbn [app].
    eapply scans_step; [apply Hstep; rewrite length_app; lia|].
    eapply scans_step; [by apply tokenizer_step_whitespace|].
    replace (tokens0 ++ t :: tokens) with ((tokens0 ++ [t]) ++ tokens)
      by (by rewrite <- app_assoc).
    by apply IH.
Qed.

(** Changing what comes after the place the outer loop gets to, when
    numbers and names end alike in front of the new continuation. *)
Lemma scans_change_tail rest tokens y tokens' :
  scans rest tokens y tokens' ->
  forall x y', rest = x ++ y -> same_stop y y' ->
  scans (x ++ y') tokens y' tokens'.
Proof.
  induction 1 as [rest tokens|char rest' tokens r1 t1 r2 t2 Hstep Hscans IH];
    intros x y' Heq Hstop.
  - assert (x = []) as ->.
    { apply (f_equal length) in Heq. rewrite length_app in Heq.
      destruct x; [reflexivity|simpl in Heq; lia]. }
    constructor.
  - destruct (scans_suffix _ _ _ _ Hscans) as [x1 ->].
    apply tokenizer_step_move in Hstep as (x' & -> & Hmove).
    assert (x = char :: x' ++ x1) as ->.
    { apply (app_inv_tail r2). rewrite <- Heq. simpl.
      by rewrite <- app_assoc. }
    cbn [app]. rewrite <- app_assoc.
    eapply scans_step; [|by apply IH].
    apply Hmove; [|rewrite length_app; lia].
    destruct x1; [assumption|by split].
Qed.

Lemma tokenizer_step_prefix fuel c rest' tokens0 tokens :
  tokenizer_step fuel c rest' (tokens0 ++ tokens)
  = let* '(rest1, tokens1) := tokenizer_step fuel c rest' tokens in
    Ok (rest1, tokens0 ++ tokens1).
Proof.
  unfold tokenizer_step.
  repeat match goal with
  | |- context [if ?b then _ else _] => destruct b
  end; cbn [bind]; rewrite <- ?app_assoc; try reflexivity;
  match goal with
  | |- context [scan_while ?cond ?f ?v ?r] =>
      destruct (scan_while cond f v r) as [[? ?]| |]
  end; cbn [bind]; rewrite <- ?app_assoc; reflexivity.
Qed.

(** The tokens there are when the loop starts stay in front of the ones it
    adds. *)
Lemma tokenizer_loop_prefix : forall fuel rest tokens0 tokens,
  tokenizer_loop fuel rest (tokens0 ++ tokens)
  = let* r := tokenizer_loop fuel rest tokens in Ok (tokens0 ++ r).
Proof.
  induction fuel as [|fuel IH]; intros rest tokens0 tokens;
    (destruct rest as [|c rest']; [reflexivity|]); [reflexivity|].
  rewrite !tokenizer_loop_cons, tokenizer_step_prefix.
  destruct (tokenizer_step fuel c rest' tokens) as [[r1 t1]| |];
    cbn [bind]; [|reflexivity..].
  apply IH.
Qed.

End TokenizerText.

(** X3: every token the tokenizer returns is well formed: a parenthesis is
    one of the two parentheses, a number is a non-empty run of digits, a name
    a non-empty run of letters, and the text of a string has no double
    quote. *)
Theorem tokenizer_tokens_well_formed input tokens :
  tokenizer input = Ok tokens -> Forall well_formed tokens.
Proof.
  intros H. apply tokenizer_loop_scans in H.
  destruct (scans_spaced _ _ _ _ H eq_refl) as (new & -> & _ & Hwf).
  exact Hwf.
Qed.

Lemma tokenizer_tokens_well_formed_witness :
  Forall well_formed [Token T_number (js "12"); Token T_name (js "ab")].
Proof.
  apply (tokenizer_tokens_well_formed (js "12 ab ")).
  vm_compute. reflexivity.
Defined.

(** X4: an input the tokenizer accepts is the texts of its tokens, in
    order, with nothing but whitespace before, between and after them; so
    there are no more tokens than code units. *)
Theorem tokenizer_input_spaced input tokens :
  tokenizer input = Ok tokens ->
  spaced tokens input /\ (length tokens <= length input)%nat.
Proof.
  intros H. apply tokenizer_loop_scans in H.
  destruct (scans_spaced _ _ _ _ H eq_refl) as (new & -> & Hsp & Hwf).
  split; [exact Hsp|]. by apply spaced_length.
Qed.

Lemma tokenizer_input_spaced_witness :
  spaced [open_paren; Token T_name (js "f"); close_paren] (js "( f)") /\
  (length [open_paren; Token T_name (js "f"); close_paren]
   <= length (js "( f)"))%nat.
Proof.
  apply (tokenizer_input_spaced (js "( f)")).
  vm_compute. reflexivity.
Defined.

(** X5: writing well-formed tokens out, a space after each, and tokenizing
    the text gives the tokens back. *)
Theorem tokenizer_text_of_tokens tokens :
  Forall well_formed tokens ->
  tokenizer (text_of_tokens tokens) = Ok tokens.
Proof.
  intros Hwf. unfold tokenizer.
  rewrite (scans_tokenizer_loop _ _ _ _ (scans_text_of_tokens tokens [] Hwf)).
  reflexivity.
Qed.

Lemma tokenizer_text_of_tokens_witness :
  tokenizer (text_of_tokens [open_paren; Token T_name (js "add");
                             Token T_number (js "2"); Token T_string (js "a b");
                             close_paren])
  = Ok [open_paren; Token T_name (js "add"); Token T_number (js "2");
        Token T_string (js "a b"); close_paren].
Proof.
  apply tokenizer_text_of_tokens.
  repeat apply List.Forall_cons; [| | | | |apply List.Forall_nil].
  - left. reflexivity.
  - split; [discriminate|repeat constructor].
  - split; [discriminate|repeat constructor].
  - intros H. apply list_elem_of_In in H. vm_compute in H.
    repeat destruct H as [H|H]; try discriminate H. exact H.
  - right. reflexivity.
Defined.

(** X6: the tokens of two inputs with whitespace between them are the
    tokens of the first followed by the tokens of the second, when the
    first is accepted; what the second does, the whole does. *)
Theorem tokenizer_app a w b tokens :
  tokenizer a = Ok tokens ->
  w <> [] -> Forall (fun c => is_whitespace c = true) w ->
  tokenizer (a ++ w ++ b)
  = let* tokens' := tokenizer b in Ok (tokens ++ tokens').
Proof.
  intros Ha Hne Hw. apply tokenizer_loop_scans in Ha.
  assert (Hsc : scans (a ++ w ++ b) [] b tokens).
  { eapply scans_trans; [|by apply scans_whitespace].
    apply (scans_change_tail a [] [] tokens Ha a (w ++ b));
      [by rewrite app_nil_r|].
    destruct Hw as [|c w Hc _]; [congruence|].
    destruct (whitespace_class c Hc) as (_ & _ & Hd & Hl).
    unfold same_stop, NUMBERS, LETTERS. cbn [app head].
    rewrite !test_Some, Hd, Hl. by split. }
  unfold tokenizer. rewrite (scans_tokenizer_loop _ _ _ _ Hsc).
  rewrite <- (app_nil_r tokens) at 1. apply tokenizer_loop_prefix.
Qed.

Lemma tokenizer_app_witness :
  tokenizer (js "(add 2" ++ js " " ++ js "3)")
  = let* tokens' := tokenizer (js "3)") in
    Ok ([open_paren; Token T_name (js "add"); Token T_number (js "2")]
          ++ tokens').
Proof.
  apply tokenizer_app.
  - vm_compute. reflexivity.
  - discriminate.
  - repeat constructor.
Defined.

(** ** The parser: results, errors, tokens *)

Section ParserResults.

Lemma unexpected_closes t : unexpected t = true -> closes t = false.
Proof.
  unfold unexpected, closes. destruct (type t); try reflexivity.
  intros H. apply andb_true_iff in H as [_ H].
  by apply negb_true_iff in H.
Qed.

Lemma walk_unexpected fuel t rest :
  unexpected t = true ->
  walk (S fuel) (t :: rest) = Throw (TypeError (token_type_name (type t))).
Proof.
  unfold unexpected. cbn [walk]. destruct (type t); try discriminate.
  - intros H. apply andb_true_iff in H as [H _].
    apply negb_true_iff in H. rewrite H. reflexivity.
  - reflexivity.
Qed.

Lemma expecting_head p : expecting p -> exists ts, p = open_paren :: ts.
Proof. destruct 1; eauto. Qed.

Lemma walk_expecting p :
  expecting p -> forall t rest fuel,
  unexpected t = true ->
  (2 * length (p ++ t :: rest) <= fuel)%nat ->
  walk fuel (p ++ t :: rest) = Throw (TypeError (token_type_name (type t))).
Proof.
  induction 1 as [callee params Hps|callee params inner Hps Hinner IH];
    intros t rest fuel Ht Hfuel.
  - cbn [app length] in Hfuel. rewrite !length_app in Hfuel.
    cbn [length] in Hfuel.
    destruct fuel as [|fuel]; [lia|].
    cbn [app walk type value open_paren].
    rewrite bool_decide_eq_true_2 by reflexivity.
    rewrite <- ?app_assoc.
    rewrite params_loop_tokens_of by (auto; lia).
    pose proof (flat_map_tokens_length params Hps).
    destruct (fuel - length params)%nat as [|fuel1] eqn:E; [lia|].
    rewrite params_loop_step by (by apply unexpected_closes).
    destruct fuel1 as [|fuel2]; [lia|].
    rewrite walk_unexpected by assumption. reflexivity.
  - cbn [app length] in Hfuel. rewrite ?length_app in Hfuel.
    cbn [length] in Hfuel. rewrite ?length_app in Hfuel.
    destruct fuel as [|fuel]; [lia|].
    cbn [app walk type value open_paren].
    rewrite bool_decide_eq_true_2 by reflexivity.
    rewrite <- ?app_assoc.
    rewrite params_loop_tokens_of by (auto; rewrite ?length_app; simpl; lia).
    pose proof (flat_map_tokens_length params Hps).
    destruct (fuel - length params)%nat as [|fuel1] eqn:E; [lia|].
    destruct (expecting_head inner Hinner) as [ts Hts].
    rewrite Hts at 1. cbn [app].
    rewrite params_loop_step by reflexivity.
    change (open_paren :: ts ++ t :: rest)
      with ((open_paren :: ts) ++ t :: rest).
    rewrite <- Hts.
    rewrite IH by (auto; rewrite length_app; simpl; lia).
    reflexivity.
Qed.

(** The tokens [walk] has read are tokens the node it returns is read
    from. *)
Lemma walk_derives : forall fuel,
  (forall tokens n rest,
     walk fuel tokens = Ok (n, rest) ->
     exists used, tokens = used ++ rest /\ derives used n) /\
  (forall acc tokens params rest,
     params_loop fuel acc tokens = Ok (params, rest) ->
     exists used new,
       tokens = used ++ rest /\ params = acc ++ new /\
       derives_all used new /\
       exists r, rest = close_paren :: r).
Proof.
  induction fuel as [|fuel [IHw IHp]]; [split; intros; discriminate|].
  split.
  - intros tokens n rest H. cbn [walk] in H.
    destruct tokens as [|[ty v] tokens]; [discriminate|].
    cbn [type value] in H. destruct ty.
    + destruct (bool_decide (v = js "(")) eqn:Hopen; [|discriminate].
      apply bool_decide_eq_true in Hopen as ->.
      destruct tokens as [|callee tokens]; [discriminate|].
      destruct (params_loop fuel [] tokens) as [[ps r]| |] eqn:E;
        [|discriminate..].
      cbn [bind] in H. injection H as <- <-.
      apply IHp in E as (used & new & -> & -> & Hnew & r' & ->).
      exists (open_paren :: callee :: used ++ [close_paren]). split.
      * cbn [app tail]. by rewrite <- app_assoc.
      * by constructor.
    + injection H as <- <-. exists [Token T_number v]. split; constructor.
    + injection H as <- <-. exists [Token T_string v]. split; constructor.
    + discriminate.
  - intros acc tokens params rest H. cbn [params_loop] in H.
    destruct tokens as [|token tokens]; [discriminate|].
    destruct (closes token) eqn:Hclose.
    + injection H as <- <-. exists [], []. rewrite app_nil_r.
      repeat split; [constructor|].
      exists tokens. f_equal.
      destruct token as [[] v]; try discriminate.
      unfold closes in Hclose. cbn [type value] in Hclose.
      by apply bool_decide_eq_true in Hclose as ->.
    + destruct (walk fuel (token :: tokens)) as [[n r]| |] eqn:E;
        [|discriminate..].
      cbn [bind] in H.
      apply IHw in E as (used1 & Heq1 & Hn).
      apply IHp in H as (used2 & new & -> & -> & Hnew & Hrest).
      exists (used1 ++ used2), (n :: new). rewrite Heq1. repeat split.
      * by rewrite <- app_assoc.
      * by rewrite <- app_assoc.
      * by constructor.
      * exact Hrest.
Qed.

Lemma parser_loop_derives : forall fuel tokens body ast,
  parser_loop fuel tokens body = Ok ast ->
  exists new, ast = Program (body ++ new) /\ derives_all tokens new.
Proof.
  induction fuel as [|fuel IH]; intros tokens body ast H;
    (destruct tokens as [|token tokens];
      [injection H as <-; exists []; rewrite app_nil_r;
       split; [reflexivity|constructor]|]);
    [discriminate|].
  cbn [parser_loop] in H.
  destruct (walk fuel (token :: tokens)) as [[n r]| |] eqn:E;
    [|discriminate..].
  cbn [bind] in H.
  apply (proj1 (walk_derives fuel)) in E as (used & -> & Hn).
  apply IH in H as (new & -> & Hnew).
  exists (n :: new). rewrite <- app_assoc. split; [reflexivity|].
  by constructor.
Qed.

(** The messages of the errors the parser throws itself. *)
Lemma walk_messages : forall fuel,
  (forall tokens message,
     walk fuel tokens = Throw (TypeError message) ->
     message = js "paren" \/ message = js "name") /\
  (forall acc tokens message,
     params_loop fuel acc tokens = Throw (TypeError message) ->
     message = js "paren" \/ message = js "name").
Proof.
  induction fuel as [|fuel [IHw IHp]]; [split; intros; discriminate|].
  split.
  - intros tokens message H. cbn [walk] in H.
    destruct tokens as [|token tokens]; [discriminate|].
    destruct (type token).
    + destruct (bool_decide (value token = js "("));
        [|injection H as <-; by left].
      destruct tokens as [|callee tokens]; [discriminate|].
      destruct (params_loop fuel [] tokens) as [[ps r]|e|] eqn:E;
        try discriminate.
      cbn [bind] in H. injection H as ->. eapply IHp, E.
    + discriminate.
    + discriminate.
    + injection H as <-. by right.
  - intros acc tokens message H. cbn [params_loop] in H.
    destruct tokens as [|token tokens]; [discriminate|].
    destruct (closes token); [discriminate|].
    destruct (walk fuel (token :: tokens)) as [[n r]|e|] eqn:E;
      try discriminate; cbn [bind] in H.
    + eapply IHp, H.
    + injection H as ->. eapply IHw, E.
Qed.

Lemma parser_loop_messages : forall fuel tokens body message,
  parser_loop fuel tokens body = Throw (TypeError message) ->
  message = js "paren" \/ message = js "name".
Proof.
  induction fuel as [|fuel IH]; intros tokens body message H;
    (destruct tokens as [|token tokens]; [discriminate|]); [discriminate|].
  cbn [parser_loop] in H.
  destruct (walk fuel (token :: tokens)) as [[n r]|e|] eqn:E;
    try discriminate; cbn [bind] in H.
  - eapply IH, H.
  - injection H as ->. eapply (proj1 (walk_messages fuel)), E.
Qed.

End ParserResults.

(** X7: the parser ends on every token sequence: it returns a [Program]
    whose body holds expressions only (literals and calls of expressions),
    or it throws. *)
Theorem parser_returns_or_throws tokens :
  (exists body, parser tokens = Ok (Program body) /\ Forall is_expr body) \/
  (exists e, parser tokens = Throw e).
Proof.
  destruct (parser tokens) as [ast|e|] eqn:H.
  - left. apply parser_Ok in H as (body & -> & Hbody). eauto.
  - right. eauto.
  - exfalso. eapply parser_terminates, H.
Qed.

(** X8: the parser reads the tokens of expressions back: the tokens of any
    sequence of expressions parse to the [Program] of these expressions. *)
Theorem parser_tokens_of body :
  Forall is_expr body ->
  parser (flat_map tokens_of body) = Ok (Program body).
Proof.
  intros Hbody. unfold parser.
  rewrite <- (app_nil_r (flat_map tokens_of body)) at 2.
  rewrite parser_loop_tokens_of by (auto; lia).
  by destruct (_ - _)%nat.
Qed.

Lemma parser_tokens_of_witness :
  parser (flat_map tokens_of
            [CallExpression (js "add")
               [NumberLiteral (js "2"); CallExpression (js "f") []];
             StringLiteral (js "x")])
  = Ok (Program
          [CallExpression (js "add")
             [NumberLiteral (js "2"); CallExpression (js "f") []];
           StringLiteral (js "x")]).
Proof. apply parser_tokens_of. repeat constructor. Defined.

(** X9: a token that begins no expression and closes no call (a name, or a
    parenthesis token with another text), standing where an expression is
    due, at top level or inside calls that are open, makes the parser throw
    a [TypeError] whose message is the type of the token. *)
Theorem parser_unexpected_token done p t rest :
  Forall is_expr done ->
  p = [] \/ expecting p ->
  unexpected t = true ->
  parser (flat_map tokens_of done ++ p ++ t :: rest)
  = Throw (TypeError (token_type_name (type t))).
Proof.
  intros Hdone Hp Ht. unfold parser. rewrite !length_app.
  rewrite parser_loop_tokens_of by (auto; lia).
  pose proof (flat_map_tokens_length done Hdone).
  cbn [length].
  destruct (_ - length done)%nat as [|fuel] eqn:E; [lia|].
  destruct Hp as [->|Hp].
  - cbn [app parser_loop].
    destruct fuel as [|fuel]; [lia|].
    rewrite walk_unexpected by assumption. reflexivity.
  - destruct (expecting_head p Hp) as [ts Hts].
    rewrite Hts at 1. cbn [app parser_loop].
    change (open_paren :: ts ++ t :: rest)
      with ((open_paren :: ts) ++ t :: rest).
    rewrite <- Hts.
    rewrite (walk_expecting p Hp)
      by (auto; rewrite length_app; simpl; lia).
    reflexivity.
Qed.

Lemma parser_unexpected_token_witness :
  parser (flat_map tokens_of [NumberLiteral (js "1")]
            ++ (open_paren :: Token T_name (js "add")
                  :: flat_map tokens_of [NumberLiteral (js "2")])
            ++ Token T_name (js "x") :: [close_paren])
  = Throw (TypeError (js "name")).
Proof.
  apply (parser_unexpected_token [NumberLiteral (js "1")]
           (open_paren :: Token T_name (js "add")
              :: flat_map tokens_of [NumberLiteral (js "2")])
           (Token T_name (js "x")) [close_paren]).
  - repeat constructor.
  - right. apply (expecting_params (Token T_name (js "add"))
                    [NumberLiteral (js "2")]).
    repeat constructor.
  - reflexivity.
Defined.

(** X10: a closing parenthesis at top level, after complete expressions,
    makes the parser throw the [TypeError] with message [paren]. *)
Theorem parser_unbalanced_close done rest :
  Forall is_expr done ->
  parser (flat_map tokens_of done ++ close_paren :: rest)
  = Throw (TypeError (js "paren")).
Proof.
  intros Hdone. unfold parser. rewrite !length_app.
  rewrite parser_loop_tokens_of by (auto; lia).
  pose proof (flat_map_tokens_length done Hdone).
  cbn [length].
  destruct (_ - length done)%nat as [|fuel] eqn:E; [lia|].
  destruct fuel as [|fuel]; [lia|]. reflexivity.
Qed.

Lemma parser_unbalanced_close_witness :
  parser (flat_map tokens_of [CallExpression (js "f") []]
            ++ close_paren :: [])
  = Throw (TypeError (js "paren")).
Proof.
  apply (parser_unbalanced_close [CallExpression (js "f") []]).
  repeat constructor.
Defined.

(** X11: the only messages of a [TypeError] the parser throws itself are
    [paren] and [name]: a number or a string token is never refused. *)
Theorem parser_error_messages tokens message :
  parser tokens = Throw (TypeError message) ->
  message = js "paren" \/ message = js "name".
Proof. apply parser_loop_messages. Qed.

Lemma parser_error_messages_witness :
  js "name" = js "paren" \/ js "name" = js "name".
Proof.
  apply (parser_error_messages [Token T_name (js "x")]).
  reflexivity.
Defined.

(** X12: the parser drops, adds and reorders nothing: when it returns, the
    tokens it was given are, one after the other, the tokens the
    expressions of the body are read from: one number token with the value
    of a number literal, one string token with the value of a string
    literal, and for a call the parenthesis [(], one token of any type
    whose text is the name of the call, the tokens of the parameters in
    order, and the parenthesis [)]. *)
Theorem parser_keeps_tokens tokens body :
  parser tokens = Ok (Program body) -> derives_all tokens body.
Proof.
  intros H. apply parser_loop_derives in H as (new & Heq & Hnew).
  injection Heq as ->. exact Hnew.
Qed.

Lemma parser_keeps_tokens_witness :
  derives_all
    [open_paren; Token T_number (js "1"); Token T_string (js "s");
     close_paren; Token T_number (js "7")]
    [CallExpression (js "1") [StringLiteral (js "s")];
     NumberLiteral (js "7")].
Proof.
  apply parser_keeps_tokens. reflexivity.
Defined.

(** ** The traverser *)

Section TraverserFacts.

Lemma traverseArray_no_visitor {state} (cs : list node) :
  Forall (fun c => forall r parent (s : state),
            (source_shaped c = true /\
             traverseNode no_visitor c r parent s = Ok s) \/
            (source_shaped c = false /\
             exists e, traverseNode no_visitor c r parent s = Throw e)) cs ->
  forall p i (s : state),
    (forallb source_shaped cs = true /\
     traverseArray (traverseNode no_visitor) cs p i s = Ok s) \/
    (forallb source_shaped cs = false /\
     exists e, traverseArray (traverseNode no_visitor) cs p i s = Throw e).
Proof.
  induction 1 as [|c cs Hc _ IH]; intros p i s; [by left|].
  cbn [forallb traverseArray].
  destruct (Hc (p.1 ++ [i]) (Some p) s) as [[-> ->]|[-> [e ->]]].
  - cbn [bind andb]. apply IH.
  - right. split; [reflexivity|]. by exists e.
Qed.

Lemma traverseNode_no_visitor {state} n : forall r parent (s : state),
  (source_shaped n = true /\ traverseNode no_visitor n r parent s = Ok s) \/
  (source_shaped n = false /\
   exists e, traverseNode no_visitor n r parent s = Throw e).
Proof.
  induction n as [body IH|name params IH| | | | |] using node_ind';
    intros r parent s; cbn [traverseNode source_shaped no_visitor call bind].
  - destruct (traverseArray_no_visitor body IH (r, Program body) 0 s)
      as [[-> ->]|[-> [e ->]]]; [by left|right; eauto].
  - destruct (traverseArray_no_visitor params IH
                (r, CallExpression name params) 0 s)
      as [[-> ->]|[-> [e ->]]]; [by left|right; eauto].
  - by left.
  - by left.
  - right. eauto.
  - right. eauto.
  - right. eauto.
Qed.

Lemma traverseArray_recording (cs : list node) :
  Forall (fun c => source_shaped c = true ->
            forall r parent s,
            traverseNode recording_visitor c r parent s
            = Ok (s ++ trace (snd <$> parent) c)) cs ->
  forallb source_shaped cs = true ->
  forall p i s,
    traverseArray (traverseNode recording_visitor) cs p i s
    = Ok (s ++ flat_map (trace (Some p.2)) cs).
Proof.
  induction 1 as [|c cs Hc _ IH]; intros Hcs p i s.
  - simpl. by rewrite app_nil_r.
  - cbn [forallb] in Hcs. apply andb_true_iff in Hcs as [Hc' Hcs].
    cbn [traverseArray flat_map]. rewrite Hc by assumption. cbn [bind].
    rewrite IH by assumption. by rewrite <- app_assoc.
Qed.

Lemma traverseNode_recording n :
  source_shaped n = true ->
  forall r parent s,
  traverseNode recording_visitor n r parent s
  = Ok (s ++ trace (snd <$> parent) n).
Proof.
  induction n as [body IH|name params IH| | | | |] using node_ind';
    intros Hn r parent s; try discriminate;
    cbn [traverseNode recording_visitor call enter exit record bind fst snd
         trace].
  - rewrite (traverseArray_recording body IH Hn). cbn [bind snd].
    unfold record. cbn [fst snd]. rewrite <- !app_assoc. reflexivity.
  - rewrite (traverseArray_recording params IH Hn). cbn [bind snd].
    unfold record. cbn [fst snd]. rewrite <- !app_assoc. reflexivity.
  - unfold record. cbn [fst snd]. rewrite <- ?app_assoc. reflexivity.
  - unfold record. cbn [fst snd]. rewrite <- ?app_assoc. reflexivity.
Qed.

End TraverserFacts.

(** X13: with a visitor that has no methods the traverser returns, and
    leaves the state as it is, exactly on the trees made of [Program],
    source calls and literals; on every tree with an [ExpressionStatement],
    an [Identifier] or a target call in it, it throws. *)
Theorem traverser_no_visitor {state} (ast : node) (s : state) :
  (source_shaped ast = true /\ traverser no_visitor ast s = Ok s) \/
  (source_shaped ast = false /\
   exists e, traverser no_visitor ast s = Throw e).
Proof. apply traverseNode_no_visitor. Qed.

(** X14: the traverser calls the methods in depth-first order: [enter] of
    a node with its parent ([null] for the root), then the same for each
    child from left to right, then [exit] of the node with its parent. *)
Theorem traverser_order ast s :
  source_shaped ast = true ->
  traverser recording_visitor ast s = Ok (s ++ trace None ast).
Proof. intros H. by apply (traverseNode_recording ast H [] None s). Qed.

Lemma traverser_order_witness :
  traverser recording_visitor
    (Program [CallExpression (js "f") [NumberLiteral (js "1")]]) []
  = Ok ([] ++ trace None
                (Program [CallExpression (js "f") [NumberLiteral (js "1")]])).
Proof. apply traverser_order. reflexivity. Defined.

(** ** The transformer: roots and target trees *)

Section TransformerMore.

Lemma visitor_ExpressionStatement :
  transformer_visitor (js "ExpressionStatement") = None.
Proof. reflexivity. Qed.

Lemma traverseNode_ExpressionStatement e r parent s :
  traverseNode transformer_visitor (ExpressionStatement e) r parent s
  = Throw (TypeError (js "ExpressionStatement")).
Proof.
  cbn [traverseNode node_type]. rewrite visitor_ExpressionStatement.
  reflexivity.
Qed.

Lemma traverseArray_app {state}
    (f : node -> ref -> option obj -> state -> outcome state) xs :
  forall ys p i s,
  traverseArray f (xs ++ ys) p i s
  = let* s' := traverseArray f xs p i s in
    traverseArray f ys p (i + length xs) s'.
Proof.
  induction xs as [|x xs IH]; intros ys p i s.
  - simpl. by rewrite Nat.add_0_r.
  - cbn [app traverseArray length].
    destruct (f x (p.1 ++ [i]) (Some p) s) as [s1| |]; cbn [bind];
      [|reflexivity..].
    rewrite IH. by rewrite Nat.add_succ_r.
Qed.

(** The expressions up to the first call are literals. *)
Lemma first_call body :
  existsb is_call body = true ->
  exists lits c rest,
    body = lits ++ c :: rest /\
    Forall (fun e => is_call e = false) lits /\ is_call c = true.
Proof.
  induction body as [|e body IH]; [discriminate|].
  cbn [existsb]. destruct (is_call e) eqn:He.
  - intros _. exists [], e, body. by repeat split.
  - intros H. destruct (IH H) as (lits & c & rest & -> & Hlits & Hc).
    exists (e :: lits), c, rest. repeat split; [by constructor|assumption].
Qed.

Lemma transform_expr_literal wrap e :
  is_call e = false -> transform_expr wrap e = e.
Proof. by destruct e. Qed.

Lemma map_transform_expr_literals wrap lits :
  Forall (fun e => is_call e = false) lits ->
  map (transform_expr wrap) lits = lits.
Proof.
  induction 1 as [|e lits He _ IH]; [reflexivity|].
  cbn [map]. rewrite transform_expr_literal by assumption.
  by rewrite IH.
Qed.

End TransformerMore.

(** X15: what the transformer builds in place, through the [_context] of
    the source nodes, is the tree a recursive translation gives: a call
    becomes a target call with an [Identifier] as callee and the translated
    parameters as arguments, inside an [ExpressionStatement] when it stands
    at top level, and a literal stays as it is; order is kept. *)
Theorem transformer_is_translation body :
  Forall is_expr body ->
  transformer (Program body) = Ok (Program (map (transform_expr true) body)).
Proof. apply transformer_Program. Qed.

Lemma transformer_is_translation_witness :
  transformer
    (Program [CallExpression (js "add")
                [NumberLiteral (js "2"); CallExpression (js "f") []];
              StringLiteral (js "x")])
  = Ok (Program
          (map (transform_expr true)
             [CallExpression (js "add")
                [NumberLiteral (js "2"); CallExpression (js "f") []];
              StringLiteral (js "x")])).
Proof. apply transformer_is_translation. repeat constructor. Defined.

(** X16: the transformer needs a [Program] at the root: given an expression
    (a literal or a call) it throws, the parent of the root being [null]. *)
Theorem transformer_root_expression ast :
  is_expr ast -> transformer ast = Throw HostTypeError.
Proof.
  destruct ast; try contradiction; intros _; unfold transformer, traverser.
  - rewrite traverseNode_CallExpression. reflexivity.
  - rewrite traverseNode_NumberLiteral. reflexivity.
  - rewrite traverseNode_StringLiteral. reflexivity.
Qed.

Lemma transformer_root_expression_witness :
  transformer (CallExpression (js "f") [NumberLiteral (js "1")])
  = Throw HostTypeError.
Proof. apply transformer_root_expression. reflexivity. Defined.

(** X17: the transformer does not take its own output: the target tree of
    a program with a call at top level makes it throw the [TypeError] with
    message [ExpressionStatement], from the traverser. *)
Theorem transformer_rejects_target body :
  Forall is_expr body -> existsb is_call body = true ->
  transformer (Program (map (transform_expr true) body))
  = Throw (TypeError (js "ExpressionStatement")).
Proof.
  intros Hbody Hcall.
  destruct (first_call body Hcall) as (lits & c & rest & -> & Hlits & Hc).
  apply Forall_app in Hbody as [Hlits' _].
  rewrite List.map_app. cbn [map].
  rewrite map_transform_expr_literals by assumption.
  assert (Hspec : array_spec lits).
  { apply traverseArray_spec. eapply Forall_impl; [exact Hlits'|].
    intros e. apply traverseNode_spec. }
  set (p := ([], Program (lits ++ transform_expr true c
                               :: map (transform_expr true) rest)) : obj).
  destruct (Hspec 0 p (Store [[]] {[ [] := 0 ]}) 0)
    as (s' & hs & ext & Ht & _).
  { apply lookup_singleton_eq. }
  { simpl. lia. }
  assert (Htr : traverser transformer_visitor p.2 (Store [[]] {[ [] := 0 ]})
                = Throw (TypeError (js "ExpressionStatement"))).
  { unfold traverser. cbn [snd p]. rewrite traverseNode_Program.
    fold p. rewrite traverseArray_app.
    eapply bind_Ok; [exact Ht|].
    destruct c; try discriminate. cbn [transform_expr traverseArray].
    rewrite traverseNode_ExpressionStatement. reflexivity. }
  unfold transformer. cbn [snd p] in Htr. rewrite Htr. reflexivity.
Qed.

Lemma transformer_rejects_target_witness :
  transformer
    (Program (map (transform_expr true)
                [NumberLiteral (js "1"); CallExpression (js "f") []]))
  = Throw (TypeError (js "ExpressionStatement")).
Proof.
  apply transformer_rejects_target; [repeat constructor|reflexivity].
Defined.

(** ** The code generator: the text *)

Section CodeGeneratorText.

Lemma map_outcome_map {A B C} (f : B -> outcome C) (g : A -> B) (h : A -> C) l :
  Forall (fun x => f (g x) = Ok (h x)) l ->
  map_outcome f (map g l) = Ok (map h l).
Proof.
  induction 1 as [|x l Hx _ IH]; [reflexivity|].
  cbn [map map_outcome]. rewrite Hx, IH. reflexivity.
Qed.

Lemma codeGenerator_expr_text e :
  is_expr e -> codeGenerator (transform_expr false e) = Ok (expr_text e).
Proof.
  induction e as [| name params IH | | | | |] using node_ind';
    try contradiction; intros He; [|reflexivity..].
  apply is_expr_call in He.
  cbn [transform_expr codeGenerator expr_text bind].
  rewrite (map_outcome_map codeGenerator (transform_expr false) expr_text).
  - reflexivity.
  - rewrite Forall_forall in *. auto.
Qed.

Lemma codeGenerator_ExpressionStatement e :
  codeGenerator (ExpressionStatement e)
  = let* text := codeGenerator e in Ok (text ++ js ";").
Proof. reflexivity. Qed.

Lemma codeGenerator_statement_text e :
  is_expr e -> codeGenerator (transform_expr true e) = Ok (statement_text e).
Proof.
  intros He. pose proof (codeGenerator_expr_text e He) as H.
  destruct e; try contradiction; [|exact H..].
  cbn [transform_expr] in H |- *.
  rewrite codeGenerator_ExpressionStatement, H. reflexivity.
Qed.

Lemma codeGenerator_program_text body :
  Forall is_expr body ->
  codeGenerator (Program (map (transform_expr true) body))
  = Ok (program_text body).
Proof.
  intros Hbody. cbn [codeGenerator].
  rewrite (map_outcome_map codeGenerator (transform_expr true) statement_text).
  - reflexivity.
  - eapply Forall_impl; [exact Hbody|].
    intros e. apply codeGenerator_statement_text.
Qed.

Lemma codeGenerator_literal e :
  is_expr e -> is_call e = false -> codeGenerator e = Ok (statement_text e).
Proof. by destruct e. Qed.

Lemma map_outcome_source body :
  Forall is_expr body ->
  map_outcome codeGenerator body
  = if existsb is_call body then Throw HostTypeError
    else Ok (map statement_text body).
Proof.
  induction 1 as [|e body He _ IH]; [reflexivity|].
  cbn [map_outcome existsb map]. destruct (is_call e) eqn:Hc.
  - destruct e; try discriminate. reflexivity.
  - rewrite codeGenerator_literal by assumption. cbn [bind orb].
    rewrite IH. by destruct (existsb is_call body).
Qed.

End CodeGeneratorText.

(** X18: run on the tree of the parser, without the transformer, the code
    generator throws as soon as there is a call at top level (it reads
    [callee], which a source call does not have); a program of literals
    only it prints. *)
Theorem codeGenerator_on_source body :
  Forall is_expr body ->
  codeGenerator (Program body)
  = if existsb is_call body then Throw HostTypeError
    else Ok (program_text body).
Proof.
  intros Hbody. cbn [codeGenerator].
  rewrite map_outcome_source by assumption.
  by destruct (existsb is_call body).
Qed.

Lemma codeGenerator_on_source_witness :
  codeGenerator (Program [NumberLiteral (js "1"); CallExpression (js "f") []])
  = if existsb is_call [NumberLiteral (js "1"); CallExpression (js "f") []]
    then Throw HostTypeError
    else Ok (program_text
               [NumberLiteral (js "1"); CallExpression (js "f") []]).
Proof. apply codeGenerator_on_source. repeat constructor. Defined.

(** ** The compiler: from text to text *)

Section CompilerFacts.

Lemma compiler_of_parsed input tokens body :
  tokenizer input = Ok tokens -> parser tokens = Ok (Program body) ->
  compiler input = Ok (program_text body).
Proof.
  intros Htokens Hparse.
  destruct (parser_Ok _ _ Hparse) as (body' & Heq & Hbody).
  injection Heq as <-.
  unfold compiler. rewrite Htokens. cbn [bind]. rewrite Hparse. cbn [bind].
  rewrite transformer_Program by assumption. cbn [bind].
  by apply codeGenerator_program_text.
Qed.

End CompilerFacts.

(** X19: what the compiler returns is the text of the parsed program: for
    each expression at top level one line, a call written as its name and,
    in parentheses, the texts of its parameters in order with a comma and a
    space between them, a call at top level followed by a semicolon, a
    number as it is and a string between double quotes. *)
Theorem compiler_program_text input tokens body :
  tokenizer input = Ok tokens -> parser tokens = Ok (Program body) ->
  compiler input = Ok (program_text body).
Proof. apply compiler_of_parsed. Qed.

Lemma compiler_program_text_witness :
  compiler (js "(add 2 (f))7")
  = Ok (program_text
          [CallExpression (js "add")
             [NumberLiteral (js "2"); CallExpression (js "f") []];
           NumberLiteral (js "7")]).
Proof.
  apply (compiler_program_text (js "(add 2 (f))7")
           [open_paren; Token T_name (js "add"); Token T_number (js "2");
            open_paren; Token T_name (js "f"); close_paren; close_paren;
            Token T_number (js "7")]).
  - vm_compute. reflexivity.
  - vm_compute. reflexivity.
Defined.

(** X20: every program of expressions with well-formed names, numbers and
    strings, written out token by token with a space after each, compiles
    to its text in the target language. *)
Theorem compiler_source_program body :
  Forall is_expr body ->
  Forall well_formed (flat_map tokens_of body) ->
  compiler (text_of_tokens (flat_map tokens_of body))
  = Ok (program_text body).
Proof.
  intros Hbody Hwf.
  apply (compiler_of_parsed _ (flat_map tokens_of body)).
  - unfold tokenizer.
    rewrite (scans_tokenizer_loop _ _ _ _
               (scans_text_of_tokens (flat_map tokens_of body) [] Hwf)).
    reflexivity.
  - unfold parser.
    rewrite <- (app_nil_r (flat_map tokens_of body)) at 2.
    rewrite parser_loop_tokens_of by (auto; lia).
    by destruct (_ - _)%nat.
Qed.

Lemma compiler_source_program_witness :
  compiler (text_of_tokens
              (flat_map tokens_of
                 [CallExpression (js "add") [NumberLiteral (js "2")]]))
  = Ok (program_text [CallExpression (js "add") [NumberLiteral (js "2")]]).
Proof.
  apply compiler_source_program.
  - repeat constructor.
  - repeat apply List.Forall_cons; [| | | |apply List.Forall_nil].
    + left. reflexivity.
    + split; [discriminate|repeat constructor].
    + split; [discriminate|repeat constructor].
    + right. reflexivity.
Defined.

(** X21: the compiler fails to end only in the tokenizer: it runs for ever
    exactly when the tokenizer does. *)
Theorem compiler_diverges_iff input :
  compiler input = OutOfFuel <-> tokenizer input = OutOfFuel.
Proof.
  split.
  - intros H. destruct (tokenizer input) as [tokens|e|] eqn:Ht;
      [|unfold compiler in H; rewrite Ht in H; discriminate|reflexivity].
    destruct (parser tokens) as [ast|e|] eqn:Hp.
    + destruct (parser_Ok _ _ Hp) as (body & -> & _).
      rewrite (compiler_of_parsed _ _ _ Ht Hp) in H. discriminate.
    + unfold compiler in H. rewrite Ht in H. cbn [bind] in H.
      rewrite Hp in H. discriminate.
    + exfalso. eapply parser_terminates, Hp.
  - intros H. unfold compiler. rewrite H. reflexivity.
Qed.

(** X22: an error of the compiler is the error of the tokenizer, or the
    error of the parser on the tokens of the tokenizer: the transformer and
    the code generator add none. *)
Theorem compiler_error_origin input e :
  compiler input = Throw e ->
  tokenizer input = Throw e \/
  exists tokens, tokenizer input = Ok tokens /\ parser tokens = Throw e.
Proof.
  intros H. destruct (tokenizer input) as [tokens|e'|] eqn:Ht.
  - right. exists tokens. split; [reflexivity|].
    destruct (parser tokens) as [ast|e'|] eqn:Hp.
    + destruct (parser_Ok _ _ Hp) as (body & -> & _).
      rewrite (compiler_of_parsed _ _ _ Ht Hp) in H. discriminate.
    + unfold compiler in H. rewrite Ht in H. cbn [bind] in H.
      rewrite Hp in H. cbn [bind] in H. congruence.
    + exfalso. eapply parser_terminates, Hp.
  - left. unfold compiler in H. rewrite Ht in H. cbn [bind] in H.
    congruence.
  - unfold compiler in H. rewrite Ht in H. discriminate.
Qed.

Lemma compiler_error_origin_witness :
  tokenizer (js "(add x)") = Throw (TypeError (js "name")) \/
  exists tokens,
    tokenizer (js "(add x)") = Ok tokens /\
    parser tokens = Throw (TypeError (js "name")).
Proof.
  apply compiler_error_origin. vm_compute. reflexivity.
Defined.

(** X23: an input of whitespace only compiles to the empty string. *)
Theorem compiler_blank_input w :
  Forall (fun c => is_whitespace c = true) w ->
  compiler w = Ok [].
Proof.
  intros Hw.
  assert (Ht : tokenizer w = Ok []).
  { unfold tokenizer. rewrite <- (app_nil_r w).
    rewrite (scans_tokenizer_loop _ _ _ _ (scans_whitespace w [] [] Hw)).
    reflexivity. }
  unfold compiler. rewrite Ht. vm_compute. reflexivity.
Qed.

Lemma compiler_blank_input_witness :
  compiler (js "  " ++ [10%N]) = Ok [].
Proof. apply compiler_blank_input. repeat constructor. Defined.
